(** * kvt: a Key|Value|Timestamp store (github.com/gholt/kvt)

    A shallow embedding of [kvt.go].  A [Store] is a Go
    [map[string]*ValueTimestamp]: the map holds pointers, [SetTimestamped] and
    [DeleteTimestamped] write through the pointer they find, and [Absorb]
    copies the donor's pointers into the receiver.  The embedding therefore
    keeps the entries in an explicit heap and lets a store map its keys to
    heap locations, so that two stores (or a store and a donor it absorbed)
    can share an entry exactly as the Go values do. *)

From stdpp Require Import base numbers option list sorting gmap strings pretty.
From Stdlib Require Import Ascii String QArith.

Local Open Scope Z_scope.

(** ** Data model *)

(** [type ValueTimestamp struct { Value *string; Timestamp int64 }].
    A nil [Value] is a deletion marker.  Go strings are immutable byte
    sequences and the package never writes through a [*string], so the
    pointed-to string is kept by value; [Timestamp] is an [int64], kept as the
    integer it denotes (the store only compares timestamps). *)
Record ValueTimestamp : Type := mkVT {
  Value : option string;
  Timestamp : Z
}.

Global Instance ValueTimestamp_eq_dec : EqDecision ValueTimestamp.
Proof. solve_decision. Defined.

(** The Go zero value [ValueTimestamp{}]. *)
Global Instance ValueTimestamp_inhabited : Inhabited ValueTimestamp :=
  populate (mkVT None 0).

(** Addresses of [ValueTimestamp] objects. *)
Definition loc : Type := positive.

(** The allocated [ValueTimestamp] objects. *)
Abbreviation heap := (gmap loc ValueTimestamp).

(** [type Store map[string]*ValueTimestamp].  The package itself only ever
    stores addresses of allocated objects in the map.  A store is a map made
    by [make] or by a literal: the nil map, on which a write panics, is not a
    value of this type. *)
Abbreviation Store := (gmap string loc).

(** Reading through a pointer.  Every pointer of a running Go program is
    valid; a location outside the heap's domain does not occur in the states
    the package builds (see [closed] below) and reads as the zero value. *)
Definition deref (h : heap) (l : loc) : ValueTimestamp := h !!! l.

(** [&ValueTimestamp{...}]: a new object at an address not in use. *)
Definition alloc (h : heap) : loc := fresh (dom h).

(** What a key denotes in a store: the entry its pointer leads to. *)
Definition entry (h : heap) (store : Store) (key : string) : option ValueTimestamp :=
  deref h <$> store !! key.

(** ** Operations of [Store] *)

(** [func (store Store) Get(key string) string] *)
Definition Get (h : heap) (store : Store) (key : string) : string :=
  match store !! key with
  | None => ""
  | Some l =>
      match Value (deref h l) with
      | None => ""
      | Some v => v
      end
  end.

(** [func (store Store) SetTimestamped(key string, value string, timestamp int64)].
    The function mutates the map or the object the map points to; the
    embedding returns the heap and the map after the call. *)
Definition SetTimestamped (h : heap) (store : Store)
    (key value : string) (timestamp : Z) : heap * Store :=
  match store !! key with
  | None =>
      let l := alloc h in
      (<[l := mkVT (Some value) timestamp]> h, <[key := l]> store)
  | Some l =>
      if decide (Timestamp (deref h l) < timestamp)
      then (<[l := mkVT (Some value) timestamp]> h, store)
      else (h, store)
  end.

(** [func (store Store) DeleteTimestamped(key string, timestamp int64)] *)
Definition DeleteTimestamped (h : heap) (store : Store)
    (key : string) (timestamp : Z) : heap * Store :=
  match store !! key with
  | None =>
      let l := alloc h in
      (<[l := mkVT None timestamp]> h, <[key := l]> store)
  | Some l =>
      if decide (Timestamp (deref h l) < timestamp)
      then (<[l := mkVT None timestamp]> h, store)
      else (h, store)
  end.

(** The body of the loop of [Purge] for one [(key, valueTimestamp)]. *)
Definition Purge_step (h : heap) (cutoff : Z) (store : Store)
    (kv : string * loc) : Store :=
  if decide (Value (deref h kv.2) = None ∧ Timestamp (deref h kv.2) < cutoff)
  then delete kv.1 store
  else store.

(** [for key, valueTimestamp := range store { ... }] visits the entries of
    the map in an order Go leaves unspecified.  Each iteration deletes at most
    the key it is visiting, so the entries visited are those of the map at the
    start of the loop; [order] is the order of the visit. *)
Definition Purge_in (order : list (string * loc)) (h : heap) (store : Store)
    (cutoff : Z) : Store :=
  foldl (Purge_step h cutoff) store order.

(** [func (store Store) Purge(cutoff int64)] *)
Definition Purge (h : heap) (store : Store) (cutoff : Z) : Store :=
  Purge_in (map_to_list store) h store cutoff.

(** The body of the loop of [Absorb] for one [(key, valueTimestamp2)]. *)
Definition Absorb_step (h : heap) (store : Store) (kv : string * loc) : Store :=
  match store !! kv.1 with
  | None => <[kv.1 := kv.2]> store
  | Some l =>
      if decide (Timestamp (deref h l) < Timestamp (deref h kv.2))
      then <[kv.1 := kv.2]> store
      else store
  end.

(** The loop of [Absorb] visiting the donor's entries in [order]. *)
Definition Absorb_in (order : list (string * loc)) (h : heap) (store : Store) : Store :=
  foldl (Absorb_step h) store order.

(** [func (store Store) Absorb(store2 Store)].  Only the receiver's map is
    written: no object is modified and none is allocated. *)
Definition Absorb (h : heap) (store store2 : Store) : Store :=
  Absorb_in (map_to_list store2) h store.

(** ** [Hash] *)

(** [hash/fnv]: the 64-bit FNV-1a hash [fnv.New64a()].  The hasher is a
    [uint64]; [Write] folds every byte in with an exclusive-or followed by a
    multiplication by the FNV prime, in 64-bit unsigned arithmetic. *)
Module fnv.
Definition offset64 : Z := 14695981039346656037.
Definition prime64 : Z := 1099511628211.

Definition New64a : Z := offset64.

Definition write_byte (hash : Z) (c : ascii) : Z :=
  (Z.lxor hash (Z.of_N (N_of_ascii c)) * prime64) `mod` 2 ^ 64.

Fixpoint Write (hash : Z) (data : string) : Z :=
  match data with
  | EmptyString => hash
  | String c data' => Write (write_byte hash c) data'
  end.

Definition Sum64 (hash : Z) : Z := hash.
End fnv.

(** [sort.Strings]: ascending order of Go's [<] on strings, which compares
    byte by byte.  The result of sorting does not depend on the algorithm
    (equal strings cannot be told apart), so any sort stands for it. *)
Definition sort_Strings (ks : list string) : list string :=
  merge_sort String.le ks.

(** The digit of [%x] for a value below 16. *)
Definition hex_digit (d : Z) : ascii :=
  match d with
  | 0 => "0" | 1 => "1" | 2 => "2" | 3 => "3" | 4 => "4" | 5 => "5"
  | 6 => "6" | 7 => "7" | 8 => "8" | 9 => "9" | 10 => "a" | 11 => "b"
  | 12 => "c" | 13 => "d" | 14 => "e" | _ => "f"
  end%char.

(** The [n] low hexadecimal digits of [x], most significant first. *)
Fixpoint hex_digits (n : nat) (x : Z) (acc : string) : string :=
  match n with
  | O => acc
  | S n' => hex_digits n' (x `div` 16) (String (hex_digit (x `mod` 16)) acc)
  end.

(** [fmt.Sprintf("%016x", x)] for a [uint64] [x]: at most sixteen digits,
    padded with zeros on the left to sixteen. *)
Definition Sprintf_016x (x : Z) : string := hex_digits 16 x "".

(** [store[k].Timestamp] for a key [k] taken from the map ([Hash] reads only
    keys it has just collected from the map). *)
Definition timestamp_at (h : heap) (store : Store) (k : string) : Z :=
  from_option Timestamp 0 (entry h store k).

(** [fmt.Sprintf("%s\n%d\n", k, store[k].Timestamp)] *)
Definition hash_line (h : heap) (store : Store) (k : string) : string :=
  k +:+ String "010" (pretty (timestamp_at h store k) +:+ String "010" "").

(** [Hash] with the keys collected by [for k := range store] in [order]. *)
Definition Hash_in (order : list string) (h : heap) (store : Store) : string :=
  let ks := sort_Strings order in
  let hasher := foldl (λ hasher k, fnv.Write hasher (hash_line h store k)) fnv.New64a ks in
  Sprintf_016x (fnv.Sum64 hasher).

(** [func (store Store) Hash() string] *)
Definition Hash (h : heap) (store : Store) : string :=
  Hash_in (map_to_list store).*1 h store.

(** The examples of the package's documentation ([ExampleStore_Hash]). *)
Definition now_2017 : Z := 1483326245000000006.

Definition store_ABC (t : Z) : heap * Store :=
  let '(h, s) := SetTimestamped ∅ ∅ "A" "one" now_2017 in
  let '(h, s) := SetTimestamped h s "B" "two" now_2017 in
  SetTimestamped h s "C" "three" t.

(** A write of an optional value: [SetTimestamped] for a value,
    [DeleteTimestamped] for a deletion marker. *)
Definition write_timestamped (h : heap) (store : Store) (key : string)
    (value : option string) (timestamp : Z) : heap * Store :=
  match value with
  | Some v => SetTimestamped h store key v timestamp
  | None => DeleteTimestamped h store key timestamp
  end.

(** A small state used in the examples: key ["A"] written once at timestamp 5. *)
Definition state_A5 : heap * Store := SetTimestamped ∅ ∅ "A" "one" 5.

(** The entries [Purge] discards. *)
Definition purgeable (h : heap) (cutoff : Z) (l : loc) : Prop :=
  Value (deref h l) = None ∧ Timestamp (deref h l) < cutoff.

(** The pointer [Absorb] leaves under a key of the donor: the donor's, when the
    receiver has none or one whose entry is strictly older; else the
    receiver's own. *)
Definition absorbed (h : heap) (mine : option loc) (l2 : loc) : loc :=
  match mine with
  | None => l2
  | Some l =>
      if decide (Timestamp (deref h l) < Timestamp (deref h l2)) then l2 else l
  end.

(** A receiver with keys ["A"], ["B"], ["C"] and a donor with ["B"], ["C"],
    ["D"] in one heap: the donor's ["B"] is newer, its ["C"] ties. *)
Definition two_stores : heap * Store * Store :=
  let '(h, s1) := SetTimestamped ∅ ∅ "A" "one" 1 in
  let '(h, s1) := SetTimestamped h s1 "B" "two" 1 in
  let '(h, s1) := SetTimestamped h s1 "C" "three" 3 in
  let '(h, s2) := DeleteTimestamped h ∅ "B" 2 in
  let '(h, s2) := SetTimestamped h s2 "C" "four" 3 in
  let '(h, s2) := SetTimestamped h s2 "D" "five" 2 in
  (h, s1, s2).

Definition heap12 : heap := two_stores.1.1.
Definition store1 : Store := two_stores.1.2.
Definition store2 : Store := two_stores.2.

(** The part of a store [Hash] depends on: the timestamp of every key. *)
Definition timestamps (h : heap) (store : Store) : gmap string Z :=
  (λ l, Timestamp (deref h l)) <$> store.

(** *** The algorithm of [Hash] as the specification words it

    "Collect all keys, sort lexicographically ascending, for each key in
    order feed [<key>\n<timestamp>\n] (timestamp as decimal) into a 64-bit
    FNV-1a accumulator, then render the final accumulator as 16 lowercase hex
    digits, zero-padded."  Written here over the key-sorted list of
    (key, timestamp) pairs, independently of the code above. *)
Module Hash_spec.
(** FNV-1a over a byte sequence, 64 bits: start from the offset basis and,
    for each byte, exclusive-or it in and multiply by the FNV prime. *)
Definition fnv1a_64 (data : list ascii) : Z :=
  fold_left
    (λ acc c, (Z.lxor acc (Z.of_N (N_of_ascii c)) * 0x100000001b3) `mod` 2 ^ 64)
    data 0xcbf29ce484222325.

(** Digit [i] (from the left) of the sixteen hexadecimal digits of [x]. *)
Definition nibble (x : Z) (i : nat) : Z := (x `div` 16 ^ (15 - Z.of_nat i)) `mod` 16.

Definition hex16 (x : Z) : string :=
  string_of_list_ascii ((λ i, hex_digit (nibble x i)) <$> seq 0 16).

Definition newline : string := String "010" "".

Definition line (kt : string * Z) : string :=
  kt.1 +:+ newline +:+ pretty kt.2 +:+ newline.

(** [kts]: the (key, timestamp) pairs in ascending order of the keys. *)
Definition Hash (kts : list (string * Z)) : string :=
  hex16 (fnv1a_64 (list_ascii_of_string (foldr String.append "" (line <$> kts)))).
End Hash_spec.

(** The store of [store_ABC] built in another order and with other values. *)
Definition store_CBA (t : Z) : heap * Store :=
  let '(h, s) := SetTimestamped ∅ ∅ "C" "tres" t in
  let '(h, s) := SetTimestamped h s "B" "dos" now_2017 in
  SetTimestamped h s "A" "uno" now_2017.

(** ** States the package builds *)

(** Every pointer held by the store is the address of an allocated object. *)
Definition closed (h : heap) (store : Store) : Prop :=
  map_Forall (λ _ l, is_Some (h !! l)) store.

(** No object is held under two keys of the store ("one Entry object is
    exclusively owned by a single key").  The package preserves this: it binds
    a key to a newly allocated object, or to the object the donor holds under
    that same key. *)
Definition exclusive (store : Store) : Prop :=
  map_Forall (λ k1 l1, map_Forall (λ k2 l2, l1 = l2 → k1 = k2) store) store.

Global Instance closed_dec h store : Decision (closed h store).
Proof. unfold closed. apply _. Defined.

Global Instance exclusive_dec store : Decision (exclusive store).
Proof. unfold exclusive. apply _. Defined.

(** ** Replaying a store's entries as individual writes *)

(** The (key, value-or-deletion, timestamp) triples a store holds. *)
Definition writes_of (h : heap) (store2 : Store) : list (string * ValueTimestamp) :=
  prod_map id (deref h) <$> map_to_list store2.

(** One triple applied to the receiver: [SetTimestamped] for a value,
    [DeleteTimestamped] for a deletion marker. *)
Definition replay_step (hs : heap * Store) (w : string * ValueTimestamp) : heap * Store :=
  write_timestamped hs.1 hs.2 w.1 (Value w.2) (Timestamp w.2).

Definition replay (writes : list (string * ValueTimestamp)) (h : heap)
    (store : Store) : heap * Store :=
  foldl replay_step (h, store) writes.

(** Last write wins, a tie keeps what is there. *)
Definition lww (mine : option ValueTimestamp) (e : ValueTimestamp) : ValueTimestamp :=
  match mine with
  | None => e
  | Some m => if decide (Timestamp m < Timestamp e) then e else m
  end.

(** ** Programs over several stores *)

(** The state of a program using the package: the allocated entries and the
    stores it holds, numbered.  A number not yet used names an empty store
    ([kvt.Store{}]); distinct numbers are distinct maps, which may well hold
    the same pointers (after an [Absorb], the receiver holds the donor's). *)
Record world : Type := mkWorld {
  mem : heap;
  stores : gmap nat Store
}.

Definition store_of (w : world) (s : nat) : Store := default ∅ (stores w !! s).

(** The mutating operations of the package, each on the store it is called on. *)
Inductive op : Type :=
  | OpSetTimestamped (s : nat) (key value : string) (timestamp : Z)
  | OpDeleteTimestamped (s : nat) (key : string) (timestamp : Z)
  | OpPurge (s : nat) (cutoff : Z)
  | OpAbsorb (s s2 : nat).

Definition step (w : world) (o : op) : world :=
  match o with
  | OpSetTimestamped s key value timestamp =>
      let r := SetTimestamped (mem w) (store_of w s) key value timestamp in
      mkWorld r.1 (<[s := r.2]> (stores w))
  | OpDeleteTimestamped s key timestamp =>
      let r := DeleteTimestamped (mem w) (store_of w s) key timestamp in
      mkWorld r.1 (<[s := r.2]> (stores w))
  | OpPurge s cutoff =>
      mkWorld (mem w) (<[s := Purge (mem w) (store_of w s) cutoff]> (stores w))
  | OpAbsorb s s2 =>
      mkWorld (mem w)
        (<[s := Absorb (mem w) (store_of w s) (store_of w s2)]> (stores w))
  end.

(** The states a sequence of operations goes through, the first included. *)
Fixpoint trace (w : world) (ops : list op) : list world :=
  w :: match ops with
       | [] => []
       | o :: ops' => trace (step w o) ops'
       end.

(** The entry a key denotes in store [s] of a state. *)
Definition entry_in (w : world) (s : nat) (key : string) : option ValueTimestamp :=
  entry (mem w) (store_of w s) key.

(** Every store of the state holds allocated objects only. *)
Definition world_closed (w : world) : Prop :=
  map_Forall (λ _ store, closed (mem w) store) (stores w).

Global Instance world_closed_dec w : Decision (world_closed w).
Proof. unfold world_closed. apply _. Defined.

(** An object is held under one key only, in whatever store. *)
Definition world_keyed (w : world) : Prop :=
  ∀ s1 s2 k1 k2 l,
    store_of w s1 !! k1 = Some l → store_of w s2 !! k2 = Some l → k1 = k2.

(** The program of the package's overview example, with explicit times:
    store 1 is written at time 1, store 2 at time 2, then store 1 again at
    time 3, and store 2 is absorbed into store 1; a purge follows. *)
Definition overview : list op :=
  [ OpSetTimestamped 1 "A" "one" 1; OpSetTimestamped 1 "B" "two" 1;
    OpSetTimestamped 1 "C" "three" 1;
    OpDeleteTimestamped 2 "B" 2; OpSetTimestamped 2 "C" "four" 2;
    OpSetTimestamped 2 "D" "five" 2; OpSetTimestamped 2 "E" "six" 2;
    OpSetTimestamped 2 "F" "seven" 2;
    OpSetTimestamped 1 "E" "eight" 3; OpDeleteTimestamped 1 "F" 3;
    OpAbsorb 1 2; OpPurge 1 3 ].

Definition world0 : world := mkWorld ∅ ∅.

(** ** The wall-clock writers *)

(** [func (store Store) Set(key string, value string)] ([Set] is a reserved
    word here, hence the prefix):
    [store.SetTimestamped(key, value, time.Now().UnixNano())].  The reading
    of the clock is an input, [now]. *)
Definition Store_Set (now : Z) (h : heap) (store : Store) (key value : string) : heap * Store :=
  SetTimestamped h store key value now.

(** [func (store Store) Delete(key string)] *)
Definition Store_Delete (now : Z) (h : heap) (store : Store) (key : string) : heap * Store :=
  DeleteTimestamped h store key now.

(** ** [SimpleString] *)

(** [store[k].Value] for a key [k] taken from the map. *)
Definition value_at (h : heap) (store : Store) (k : string) : option string :=
  from_option Value None (entry h store k).

(** What one round of the loop of [SimpleString] appends for the key [k] at
    index [i] of the sorted keys: [fmt.Sprintf("%s/deleted", k)] or
    [fmt.Sprintf("%s=%s", k, *store[k].Value)], with a leading comma from the
    second key on. *)
Definition SimpleString_item (h : heap) (store : Store) (i : nat) (k : string) : string :=
  match value_at h store k with
  | None =>
      match i with
      | O => k +:+ "/deleted"
      | S _ => "," +:+ k +:+ "/deleted"
      end
  | Some v =>
      match i with
      | O => k +:+ "=" +:+ v
      | S _ => "," +:+ k +:+ "=" +:+ v
      end
  end.

(** [for i, k := range ks { msg += ... }] from index [i] on. *)
Fixpoint SimpleString_loop (h : heap) (store : Store) (i : nat) (ks : list string)
    (msg : string) : string :=
  match ks with
  | [] => msg
  | k :: ks' =>
      SimpleString_loop h store (S i) ks' (msg +:+ SimpleString_item h store i k)
  end.

(** [SimpleString] with the keys collected from the map in [order]. *)
Definition SimpleString_in (order : list string) (h : heap) (store : Store) : string :=
  SimpleString_loop h store 0 (sort_Strings order) "".

(** [func (store Store) SimpleString() string] *)
Definition SimpleString (h : heap) (store : Store) : string :=
  SimpleString_in (map_to_list store).*1 h store.

(** The part of a store [SimpleString] depends on: the value, or the deletion
    marker, of every key. *)
Definition values (h : heap) (store : Store) : gmap string (option string) :=
  (λ l, Value (deref h l)) <$> store.

(** One key with its value or deletion marker, as [SimpleString] prints it. *)
Definition simple_item (kv : string * option string) : string :=
  match kv.2 with
  | None => kv.1 +:+ "/deleted"
  | Some v => kv.1 +:+ "=" +:+ v
  end.

(** Items separated by commas. *)
Fixpoint comma_join (items : list string) : string :=
  match items with
  | [] => ""
  | [x] => x
  | x :: rest => x +:+ "," +:+ comma_join rest
  end.

(** ** [ValueTimestamp.String] *)

(** [func (valueTimestamp *ValueTimestamp) String() string]:
    [fmt.Sprintf("nil,%d", ...)] for a deletion marker, else
    [fmt.Sprintf("%s,%d", *valueTimestamp.Value, valueTimestamp.Timestamp)]. *)
Definition ValueTimestamp_String (valueTimestamp : ValueTimestamp) : string :=
  match Value valueTimestamp with
  | None => "nil," +:+ pretty (Timestamp valueTimestamp)
  | Some v => v +:+ "," +:+ pretty (Timestamp valueTimestamp)
  end.

(** A store that deleted key ["K"] at time 5, and a donor that still holds the
    value written at time 3. *)
Definition stale_donor : heap * Store * Store :=
  let '(h, s1) := DeleteTimestamped ∅ ∅ "K" 5 in
  let '(h, s2) := SetTimestamped h ∅ "K" "old" 3 in
  (h, s1, s2).

(** Two keys ["A"], ["B"] at timestamps 1 and 2, and the single key
    "A, newline, 1, newline, B" at timestamp 2. *)
Definition state_AB : heap * Store :=
  let '(h, s) := SetTimestamped ∅ ∅ "A" "x" 1 in
  SetTimestamped h s "B" "y" 2.

Definition state_newline : heap * Store :=
  SetTimestamped ∅ ∅
    ("A" +:+ Hash_spec.newline +:+ "1" +:+ Hash_spec.newline +:+ "B") "z" 2.

(** The state of the overview program once store 2 has been absorbed. *)
Definition overview_merged : world := foldl step world0 (take 11 overview).

(** * The JSON codec of [ValueTimestamp]

    [MarshalJSON] and [UnmarshalJSON] go through Go's [encoding/json].  The
    part of that library the two methods use is modelled here after its
    documented behaviour: the text of a JSON value, the decoding of JSON text
    into Go's [interface{}] values (numbers as [float64]), and the rules of
    [unicode/utf8], [unicode/utf16] and [strconv.ParseFloat] it relies on.
    Byte slices are [string]s, one character per byte. *)

(** ** Bytes and runes *)

Definition byte_val (c : ascii) : Z := Z.of_N (N_of_ascii c).
Definition byte_of (z : Z) : ascii := ascii_of_N (Z.to_N z).

(** [lo <= b && b <= hi] *)
Definition between (lo hi b : Z) : bool := (lo <=? b) && (b <=? hi).

Fixpoint string_drop (n : nat) (s : string) : string :=
  match n, s with
  | S n', String _ s' => string_drop n' s'
  | _, _ => s
  end.

Fixpoint string_take (n : nat) (s : string) : string :=
  match n, s with
  | S n', String c s' => String c (string_take n' s')
  | _, _ => ""
  end.

(** [utf8.RuneError], U+FFFD. *)
Definition RuneError : Z := 0xFFFD.

(** The continuation byte [c] as six payload bits, when it lies in [lo..hi]. *)
Definition continuation (lo hi : Z) (s : string) : option (Z * string) :=
  match s with
  | String c s' =>
      if between lo hi (byte_val c) then Some (Z.land (byte_val c) 0x3F, s') else None
  | EmptyString => None
  end.

(** [utf8.DecodeRune]: the first rune of [s] and its width in bytes; an
    encoding that is not well formed (a stray or missing continuation byte, an
    overlong form, a surrogate, a value above U+10FFFF) gives
    [(RuneError, 1)], the empty string [(RuneError, 0)]. *)
Definition utf8_DecodeRune (s : string) : Z * nat :=
  match s with
  | EmptyString => (RuneError, 0%nat)
  | String c0 s1 =>
      let b0 := byte_val c0 in
      if b0 <? 0x80 then (b0, 1%nat)
      else if b0 <? 0xC2 then (RuneError, 1%nat)
      else if b0 <? 0xE0 then
        match continuation 0x80 0xBF s1 with
        | Some (x1, _) => (Z.lor (Z.shiftl (Z.land b0 0x1F) 6) x1, 2%nat)
        | None => (RuneError, 1%nat)
        end
      else if b0 <? 0xF0 then
        let lo := if b0 =? 0xE0 then 0xA0 else 0x80 in
        let hi := if b0 =? 0xED then 0x9F else 0xBF in
        match continuation lo hi s1 with
        | Some (x1, s2) =>
            match continuation 0x80 0xBF s2 with
            | Some (x2, _) =>
                (Z.lor (Z.shiftl (Z.land b0 0x0F) 12) (Z.lor (Z.shiftl x1 6) x2), 3%nat)
            | None => (RuneError, 1%nat)
            end
        | None => (RuneError, 1%nat)
        end
      else if b0 <? 0xF5 then
        let lo := if b0 =? 0xF0 then 0x90 else 0x80 in
        let hi := if b0 =? 0xF4 then 0x8F else 0xBF in
        match continuation lo hi s1 with
        | Some (x1, s2) =>
            match continuation 0x80 0xBF s2 with
            | Some (x2, s3) =>
                match continuation 0x80 0xBF s3 with
                | Some (x3, _) =>
                    (Z.lor (Z.shiftl (Z.land b0 0x07) 18)
                       (Z.lor (Z.shiftl x1 12) (Z.lor (Z.shiftl x2 6) x3)), 4%nat)
                | None => (RuneError, 1%nat)
                end
            | None => (RuneError, 1%nat)
            end
        | None => (RuneError, 1%nat)
        end
      else (RuneError, 1%nat)
  end.

(** [utf8.EncodeRune] / [utf8.AppendRune]: surrogates and values out of range
    are encoded as [RuneError]. *)
Definition utf8_EncodeRune (r : Z) : string :=
  let cont x := byte_of (Z.lor 0x80 (Z.land x 0x3F)) in
  let three x :=
    String (byte_of (Z.lor 0xE0 (Z.shiftr x 12)))
      (String (cont (Z.shiftr x 6)) (String (cont x) "")) in
  if (r <? 0) then three RuneError
  else if r <? 0x80 then String (byte_of r) ""
  else if r <? 0x800 then
    String (byte_of (Z.lor 0xC0 (Z.shiftr r 6))) (String (cont r) "")
  else if between 0xD800 0xDFFF r then three RuneError
  else if r <? 0x10000 then three r
  else if r <? 0x110000 then
    String (byte_of (Z.lor 0xF0 (Z.shiftr r 18)))
      (String (cont (Z.shiftr r 12)) (String (cont (Z.shiftr r 6)) (String (cont r) "")))
  else three RuneError.

(** [utf16.IsSurrogate] *)
Definition utf16_IsSurrogate (r : Z) : bool := between 0xD800 0xDFFF r.

(** [utf16.DecodeRune]: the code point of a surrogate pair, [RuneError] when
    the two halves do not form one. *)
Definition utf16_DecodeRune (r1 r2 : Z) : Z :=
  if between 0xD800 0xDBFF r1 && between 0xDC00 0xDFFF r2
  then Z.lor (Z.shiftl (r1 - 0xD800) 10) (r2 - 0xDC00) + 0x10000
  else RuneError.

(** ** Writing a JSON string ([encoding/json], [appendString] with HTML
    escaping, which [json.Marshal] uses) *)

Definition dquote : ascii := byte_of 34.
Definition backslash : ascii := byte_of 92.

(** [htmlSafeSet]: the ASCII bytes written as they are: from space on, but
    for the double quote, the backslash, and [&], [<], [>]. *)
Definition htmlSafe (b : Z) : bool :=
  (0x20 <=? b) && (b <? 0x80) &&
  negb ((b =? 34) || (b =? 92) || (b =? 38) || (b =? 60) || (b =? 62)).

(** A backslash followed by the bytes of [s]. *)
Definition escaped (s : string) : string := String backslash s.

(** [\u00XY] for the byte [b]. *)
Definition escape_u00 (b : Z) : string :=
  escaped (String "u" (String "0" (String "0"
    (String (hex_digit (Z.shiftr b 4)) (String (hex_digit (Z.land b 0xF)) ""))))).

(** The escape of an ASCII byte that is not in [htmlSafeSet]. *)
Definition escape_byte (b : Z) : string :=
  if (b =? 92) || (b =? 34) then escaped (String (byte_of b) "")
  else if b =? 8 then escaped "b"
  else if b =? 12 then escaped "f"
  else if b =? 10 then escaped "n"
  else if b =? 13 then escaped "r"
  else if b =? 9 then escaped "t"
  else escape_u00 b.

(** The loop of [appendString] over [src]: one round per rune. *)
Fixpoint appendString_loop (fuel : nat) (src : string) : string :=
  match fuel, src with
  | S fuel', String c rest =>
      let b := byte_val c in
      if b <? 0x80 then
        (if htmlSafe b then String c "" else escape_byte b)
          +:+ appendString_loop fuel' rest
      else
        let '(r, size) := utf8_DecodeRune src in
        if (r =? RuneError) && Nat.eqb size 1 then
          escaped "ufffd" +:+ appendString_loop fuel' rest
        else if (r =? 0x2028) || (r =? 0x2029) then
          escaped (String "u" (String "2" (String "0" (String "2"
            (String (hex_digit (Z.land r 0xF)) "")))))
            +:+ appendString_loop fuel' (string_drop size src)
        else
          string_take size src +:+ appendString_loop fuel' (string_drop size src)
  | _, _ => ""
  end.

(** A Go string as JSON text.  Every round of the loop takes at least one
    byte, so the length of the string is fuel enough. *)
Definition appendString (src : string) : string :=
  String dquote (appendString_loop (String.length src) src +:+ String dquote "").

(** ** [MarshalJSON] *)

(** What [MarshalJSON] and [UnmarshalJSON] return as [error]: an error of
    [encoding/json], or one made by [fmt.Errorf] with its message. *)
Inductive json_error : Type :=
  | SyntaxError
  | UnmarshalTypeError.

Inductive error : Type :=
  | JSONError (e : json_error)
  | Errorf (msg : string).

(** [func (valueTimestamp *ValueTimestamp) MarshalJSON() ([]byte, error)]:
    [json.Marshal([]interface{}{valueTimestamp.Value, valueTimestamp.Timestamp})].
    A nil [*string] is written [null], a string as JSON text, an [int64] in
    decimal; marshalling these types has no error. *)
Definition MarshalJSON (valueTimestamp : ValueTimestamp) : string * option error :=
  ("[" +:+
   match Value valueTimestamp with
   | None => "null"
   | Some v => appendString v
   end +:+ "," +:+ pretty (Timestamp valueTimestamp) +:+ "]",
   None).

(** ** [float64]

    A finite [float64] is kept as the rational number it denotes ([-0] as
    [0]: the code only compares with [==] and converts).  JSON text cannot
    denote an infinity or a NaN. *)

(** [n / d / 2^e] as a fraction of two integers, for [0 < d]. *)
Definition scale2 (n d e : Z) : Z * Z :=
  if 0 <=? e then (n, d * 2 ^ e) else (n * 2 ^ (- e), d).

(** The exponent of the unit in the last place of the [float64]s around the
    positive rational [n / d]: 52 below its binary logarithm, but not below
    the exponent [-1074] of the subnormal numbers. *)
Definition float64_ulp_exponent (n d : Z) : Z :=
  let l := Z.log2 n - Z.log2 d in
  let '(n', d') := scale2 n d l in
  let floor_log2 := if n' <? d' then l - 1 else l in
  Z.max (floor_log2 - 52) (-1074).

(** [q + r / d] rounded to an integer, to nearest, ties to even. *)
Definition round_half_even (q r d : Z) : Z :=
  if 2 * r <? d then q
  else if 2 * r =? d then (if Z.even q then q else q + 1)
  else q + 1.

(** The positive rational [n / d] rounded to 53 significant bits, as
    (significand, exponent). *)
Definition float64_round_pos (n d : Z) : Z * Z :=
  let e := float64_ulp_exponent n d in
  let '(n', d') := scale2 n d e in
  (round_half_even (n' `div` d') (n' `mod` d') d', e).

(** The rational [m * 2^e]. *)
Definition Q_of_binary (m e : Z) : Q :=
  if 0 <=? e then Qmake (m * 2 ^ e) 1 else Qmake m (Z.to_pos (2 ^ (- e))).

(** The [float64] nearest to [n / d] (IEEE 754 round to nearest, ties to
    even), for [0 < d]; [None] when the result is out of range. *)
Definition float64_of_fraction (n d : Z) : option Q :=
  if n =? 0 then Some (Qmake 0 1)
  else
    let '(m, e) := float64_round_pos (Z.abs n) d in
    if (0 <=? e) && (2 ^ 1024 <=? m * 2 ^ e) then None
    else Some (Q_of_binary (Z.sgn n * m) e).

(** [strconv.ParseFloat(s, 64)] on the text of a JSON number whose value is
    [mant * 10^exp10]: the nearest [float64], or a range error. *)
Definition ParseFloat (mant exp10 : Z) : option Q :=
  if 0 <=? exp10 then float64_of_fraction (mant * 10 ^ exp10) 1
  else float64_of_fraction mant (10 ^ (- exp10)).

(** [float64(i)] for an [int64] [i]. *)
Definition float64_of_int64 (i : Z) : Q :=
  default (Qmake 0 1) (float64_of_fraction i 1).

(** An integer as [int64]: the 64 low bits, two's complement. *)
Definition wrap_int64 (z : Z) : Z := (z + 2 ^ 63) `mod` 2 ^ 64 - 2 ^ 63.

Section conversion.
(** [int64(t)] for a [float64] [t] discards the fraction.  When the result
    does not fit an [int64] the conversion still succeeds, with a value that
    depends on the implementation ([-2^63] on amd64): [unspecified] is that
    value. *)
Variable unspecified : Q → Z.

Definition int64_of_float64 (t : Q) : Z :=
  let i := Z.quot (Qnum t) (Zpos (Qden t)) in
  if (- 2 ^ 63 <=? i) && (i <? 2 ^ 63) then i else wrap_int64 (unspecified t).
End conversion.

(** The conversion of amd64. *)
Definition amd64 : Q → Z := λ _, - 2 ^ 63.

(** ** Reading JSON text *)

(** What [json.Unmarshal] stores into an [interface{}]: [nil], a [bool], a
    [float64], a [string], a [[]interface{}] or a [map[string]interface{}]
    (kept as the list of its members in the order of the text). *)
#[warnings="-register-all"]
Inductive iface : Type :=
  | Inil
  | Ibool (b : bool)
  | Ifloat64 (t : Q)
  | Istring (s : string)
  | Islice (l : list iface)
  | Imap (m : list (string * iface)).

(** A JSON value as read from the text, numbers not yet converted. *)
#[warnings="-register-all"]
Inductive jvalue : Type :=
  | Jnull
  | Jbool (b : bool)
  | Jnumber (mant exp10 : Z)
  | Jstring (s : string)
  | Jarray (l : list jvalue)
  | Jobject (m : list (string * jvalue)).

(** The outcome of reading a prefix of the text. *)
Inductive parsed (A : Type) : Type :=
  | Parsed (a : A) (rest : string)
  | Invalid
  | OutOfFuel.
Arguments Parsed {A} a rest.
Arguments Invalid {A}.
Arguments OutOfFuel {A}.

Definition parsed_bind {A B} (p : parsed A) (k : A → string → parsed B) : parsed B :=
  match p with
  | Parsed a rest => k a rest
  | Invalid => Invalid
  | OutOfFuel => OutOfFuel
  end.

Definition is_space (b : Z) : bool :=
  (b =? 32) || (b =? 9) || (b =? 13) || (b =? 10).

Fixpoint skip_space (s : string) : string :=
  match s with
  | String c s' => if is_space (byte_val c) then skip_space s' else s
  | EmptyString => s
  end.

Definition hex_value (b : Z) : option Z :=
  if between 48 57 b then Some (b - 48)
  else if between 97 102 b then Some (b - 87)
  else if between 65 70 b then Some (b - 55)
  else None.

(** Four hexadecimal digits at the head of [s]. *)
Definition hex4 (s : string) : option (Z * string) :=
  match s with
  | String a (String b (String c (String d rest))) =>
      match hex_value (byte_val a), hex_value (byte_val b),
            hex_value (byte_val c), hex_value (byte_val d) with
      | Some x, Some y, Some z, Some w =>
          Some (Z.lor (Z.shiftl x 12) (Z.lor (Z.shiftl y 8) (Z.lor (Z.shiftl z 4) w)), rest)
      | _, _, _, _ => None
      end
  | _ => None
  end.

(** [getu4]: a [\uXXXX] at the head of [s]. *)
Definition getu4 (s : string) : option (Z * string) :=
  match s with
  | String a (String b rest) =>
      if (byte_val a =? 92) && (byte_val b =? 117) then hex4 rest else None
  | _ => None
  end.

(** The character a one-letter escape stands for. *)
Definition simple_escape (b : Z) : option ascii :=
  if (b =? 34) || (b =? 92) || (b =? 47) then Some (byte_of b)
  else if b =? 98 then Some (byte_of 8)
  else if b =? 102 then Some (byte_of 12)
  else if b =? 110 then Some (byte_of 10)
  else if b =? 114 then Some (byte_of 13)
  else if b =? 116 then Some (byte_of 9)
  else None.

Definition parsed_prepend (x : string) (p : parsed string) : parsed string :=
  parsed_bind p (λ s rest, Parsed (x +:+ s) rest).

(** The body of a JSON string, after its opening quote, up to and including
    the closing quote ([unquote], which the scanner has checked before): the
    Go string it denotes.  Escapes are replaced; a [\u] escape of half a
    surrogate pair, and every byte that is not well-formed UTF-8, becomes
    U+FFFD; a control character is not allowed. *)
Fixpoint unquote (fuel : nat) (s : string) : parsed string :=
  match fuel with
  | O => OutOfFuel
  | S fuel' =>
      match s with
      | EmptyString => Invalid
      | String c rest =>
          let b := byte_val c in
          if b =? 34 then Parsed "" rest
          else if b =? 92 then
            match rest with
            | EmptyString => Invalid
            | String e rest' =>
                if byte_val e =? 117 then
                  match hex4 rest' with
                  | None => Invalid
                  | Some (rr, rest'') =>
                      if utf16_IsSurrogate rr then
                        match getu4 rest'' with
                        | Some (rr1, rest3) =>
                            let dec := utf16_DecodeRune rr rr1 in
                            if dec =? RuneError
                            then parsed_prepend (utf8_EncodeRune RuneError) (unquote fuel' rest'')
                            else parsed_prepend (utf8_EncodeRune dec) (unquote fuel' rest3)
                        | None =>
                            parsed_prepend (utf8_EncodeRune RuneError) (unquote fuel' rest'')
                        end
                      else parsed_prepend (utf8_EncodeRune rr) (unquote fuel' rest'')
                  end
                else
                  match simple_escape (byte_val e) with
                  | Some x => parsed_prepend (String x "") (unquote fuel' rest')
                  | None => Invalid
                  end
            end
          else if b <? 0x20 then Invalid
          else if b <? 0x80 then parsed_prepend (String c "") (unquote fuel' rest)
          else
            let '(rr, size) := utf8_DecodeRune s in
            parsed_prepend (utf8_EncodeRune rr) (unquote fuel' (string_drop size s))
      end
  end.

Definition is_digit (b : Z) : bool := between 48 57 b.

(** The digits at the head of [s]: their value appended to [acc], their
    number added to [n]. *)
Fixpoint digits (acc : Z) (n : nat) (s : string) : Z * nat * string :=
  match s with
  | String c s' =>
      if is_digit (byte_val c) then digits (10 * acc + (byte_val c - 48)) (S n) s'
      else (acc, n, s)
  | EmptyString => (acc, n, s)
  end.

(** The integer part of a number: [0], or digits that do not start with 0. *)
Definition number_int (s : string) : option (Z * string) :=
  match s with
  | String c s' =>
      if byte_val c =? 48 then Some (0, s')
      else if between 49 57 (byte_val c) then
        let '(i, _, rest) := digits 0 0 s in Some (i, rest)
      else None
  | EmptyString => None
  end.

(** An optional fraction: [(mant, exp10)] becomes the number with the
    fraction's digits appended. *)
Definition number_frac (mant : Z) (s : string) : option (Z * Z * string) :=
  match s with
  | String c s' =>
      if byte_val c =? 46 then
        let '(f, k, rest) := digits 0 0 s' in
        match k with
        | O => None
        | S _ => Some (mant * 10 ^ Z.of_nat k + f, - Z.of_nat k, rest)
        end
      else Some (mant, 0, s)
  | EmptyString => Some (mant, 0, s)
  end.

(** An optional exponent. *)
Definition number_exp (exp10 : Z) (s : string) : option (Z * string) :=
  match s with
  | String c s' =>
      if (byte_val c =? 101) || (byte_val c =? 69) then
        let '(neg, s'') :=
          match s' with
          | String sg t =>
              if byte_val sg =? 43 then (false, t)
              else if byte_val sg =? 45 then (true, t)
              else (false, s')
          | EmptyString => (false, s')
          end in
        let '(x, k, rest) := digits 0 0 s'' in
        match k with
        | O => None
        | S _ => Some (if neg then exp10 - x else exp10 + x, rest)
        end
      else Some (exp10, s)
  | EmptyString => Some (exp10, s)
  end.

(** A JSON number: an optional minus sign, the integer part, an optional
    fraction, an optional exponent.  Its value is [mant * 10^exp10]. *)
Definition number (s : string) : parsed jvalue :=
  let '(neg, s1) :=
    match s with
    | String c s' => if byte_val c =? 45 then (true, s') else (false, s)
    | EmptyString => (false, s)
    end in
  match number_int s1 with
  | None => Invalid
  | Some (i, s2) =>
      match number_frac i s2 with
      | None => Invalid
      | Some (m, e, s3) =>
          match number_exp e s3 with
          | None => Invalid
          | Some (e', s4) => Parsed (Jnumber (if neg then - m else m) e') s4
          end
      end
  end.

(** [s] starts with the bytes of [lit]. *)
Fixpoint literal (lit s : string) : option string :=
  match lit, s with
  | EmptyString, _ => Some s
  | String a lit', String b s' => if Ascii.eqb a b then literal lit' s' else None
  | String _ _, EmptyString => None
  end.

(** [maxNestingDepth] of the scanner. *)
Definition maxNestingDepth : Z := 10000.

(** One JSON value at the head of the text, white space before it skipped
    ([value]); the elements of an array after the first ([elements]); the
    members of an object after the first ([members]).  [depth] counts the
    arrays and objects around the value. *)
Fixpoint value (fuel : nat) (depth : Z) (s : string) : parsed jvalue :=
  match fuel with
  | O => OutOfFuel
  | S fuel' =>
      match skip_space s with
      | EmptyString => Invalid
      | String c rest as s0 =>
          let b := byte_val c in
          if b =? 91 then
            if maxNestingDepth <=? depth then Invalid else
            match skip_space rest with
            | String c' rest' as r0 =>
                if byte_val c' =? 93 then Parsed (Jarray []) rest'
                else
                  parsed_bind (value fuel' (depth + 1) r0) (λ v r,
                  parsed_bind (elements fuel' (depth + 1) r) (λ vs r',
                  Parsed (Jarray (v :: vs)) r'))
            | EmptyString => Invalid
            end
          else if b =? 123 then
            if maxNestingDepth <=? depth then Invalid else
            match skip_space rest with
            | String c' rest' as r0 =>
                if byte_val c' =? 125 then Parsed (Jobject []) rest'
                else
                  parsed_bind (member fuel' (depth + 1) r0) (λ kv r,
                  parsed_bind (members fuel' (depth + 1) r) (λ kvs r',
                  Parsed (Jobject (kv :: kvs)) r'))
            | EmptyString => Invalid
            end
          else if b =? 34 then
            parsed_bind (unquote (S (String.length rest)) rest) (λ x r, Parsed (Jstring x) r)
          else if (b =? 45) || is_digit b then number s0
          else if b =? 116 then
            match literal "true" s0 with Some r => Parsed (Jbool true) r | None => Invalid end
          else if b =? 102 then
            match literal "false" s0 with Some r => Parsed (Jbool false) r | None => Invalid end
          else if b =? 110 then
            match literal "null" s0 with Some r => Parsed Jnull r | None => Invalid end
          else Invalid
      end
  end
with elements (fuel : nat) (depth : Z) (s : string) : parsed (list jvalue) :=
  match fuel with
  | O => OutOfFuel
  | S fuel' =>
      match skip_space s with
      | EmptyString => Invalid
      | String c rest =>
          if byte_val c =? 93 then Parsed [] rest
          else if byte_val c =? 44 then
            parsed_bind (value fuel' depth rest) (λ v r,
            parsed_bind (elements fuel' depth r) (λ vs r', Parsed (v :: vs) r'))
          else Invalid
      end
  end
with member (fuel : nat) (depth : Z) (s : string) : parsed (string * jvalue) :=
  match fuel with
  | O => OutOfFuel
  | S fuel' =>
      match skip_space s with
      | String c rest =>
          if byte_val c =? 34 then
            parsed_bind (unquote (S (String.length rest)) rest) (λ k r,
            match skip_space r with
            | String c' r' =>
                if byte_val c' =? 58 then
                  parsed_bind (value fuel' depth r') (λ v r'', Parsed (k, v) r'')
                else Invalid
            | EmptyString => Invalid
            end)
          else Invalid
      | EmptyString => Invalid
      end
  end
with members (fuel : nat) (depth : Z) (s : string) : parsed (list (string * jvalue)) :=
  match fuel with
  | O => OutOfFuel
  | S fuel' =>
      match skip_space s with
      | EmptyString => Invalid
      | String c rest =>
          if byte_val c =? 125 then Parsed [] rest
          else if byte_val c =? 44 then
            parsed_bind (member fuel' depth rest) (λ kv r,
            parsed_bind (members fuel' depth r) (λ kvs r', Parsed (kv :: kvs) r'))
          else Invalid
      end
  end.

(** The whole text is one JSON value, white space around it allowed
    ([checkValid]).  Every call takes at least one byte of the text, so its
    length is fuel enough ([json_parse_fuel] below proves that the fuel is
    never exhausted). *)
Definition json_parse (b : string) : parsed jvalue :=
  parsed_bind (value (2 * String.length b + 2) 0 b) (λ v rest,
    match skip_space rest with
    | EmptyString => Parsed v ""
    | String _ _ => Invalid
    end).

(** The Go value of a JSON value stored into an [interface{}]; [None] when a
    number in it is out of the range of [float64] (the decoder then reports
    an [UnmarshalTypeError]). *)
Fixpoint to_interface (v : jvalue) : option iface :=
  match v with
  | Jnull => Some Inil
  | Jbool b => Some (Ibool b)
  | Jnumber mant exp10 => Ifloat64 <$> ParseFloat mant exp10
  | Jstring s => Some (Istring s)
  | Jarray l =>
      Islice <$>
        (fix all (l : list jvalue) : option (list iface) :=
           match l with
           | [] => Some []
           | x :: l' =>
               match to_interface x, all l' with
               | Some y, Some ys => Some (y :: ys)
               | _, _ => None
               end
           end) l
  | Jobject m =>
      Imap <$>
        (fix all (m : list (string * jvalue)) : option (list (string * iface)) :=
           match m with
           | [] => Some []
           | (k, x) :: m' =>
               match to_interface x, all m' with
               | Some y, Some ys => Some ((k, y) :: ys)
               | _, _ => None
               end
           end) m
  end.

Definition to_interfaces (l : list jvalue) : option (list iface) :=
  match to_interface (Jarray l) with
  | Some (Islice xs) => Some xs
  | _ => None
  end.

(** [json.Unmarshal(b, &jsonValueTimestamp)] for a [[]interface{}]: a syntax
    error for text that is not one JSON value; the elements of a JSON array;
    the nil slice for [null]; an [UnmarshalTypeError] for any other value, and
    for a number that [float64] cannot hold. *)
Definition json_Unmarshal (b : string) : json_error + list iface :=
  match json_parse b with
  | Parsed Jnull _ => inr []
  | Parsed (Jarray l) _ =>
      match to_interfaces l with
      | Some xs => inr xs
      | None => inl UnmarshalTypeError
      end
  | Parsed _ _ => inl UnmarshalTypeError
  | Invalid | OutOfFuel => inl SyntaxError
  end.

(** ** [UnmarshalJSON] *)

Section UnmarshalJSON.
Variable unspecified : Q → Z.

(** The part of [UnmarshalJSON] after [json.Unmarshal] has filled
    [jsonValueTimestamp]: the target after the call and the error returned.
    The value is assigned before the timestamp is examined. *)
Definition UnmarshalJSON_decoded (valueTimestamp : ValueTimestamp) (b : string)
    (jsonValueTimestamp : list iface) : ValueTimestamp * option error :=
  match jsonValueTimestamp with
  | [e0; e1] =>
      let assigned :=
        match e0 with
        | Inil => inr (mkVT None (Timestamp valueTimestamp))
        | Istring value => inr (mkVT (Some value) (Timestamp valueTimestamp))
        | _ => inl (Errorf ("invalid value from: " +:+ b))
        end in
      match assigned with
      | inl err => (valueTimestamp, Some err)
      | inr valueTimestamp' =>
          match e1 with
          | Ifloat64 t =>
              if Qeq_bool (float64_of_int64 (int64_of_float64 unspecified t)) t
              then (mkVT (Value valueTimestamp') (int64_of_float64 unspecified t), None)
              else (valueTimestamp', Some (Errorf ("invalid timestamp from: " +:+ b)))
          | _ => (valueTimestamp', Some (Errorf ("invalid timestamp from: " +:+ b)))
          end
      end
  | _ => (valueTimestamp, Some (Errorf ("expected [value,timestamp] from: " +:+ b)))
  end.

(** [func (valueTimestamp *ValueTimestamp) UnmarshalJSON(b []byte) error]:
    the target after the call, and the error. *)
Definition UnmarshalJSON (valueTimestamp : ValueTimestamp) (b : string)
    : ValueTimestamp * option error :=
  match json_Unmarshal b with
  | inl err => (valueTimestamp, Some (JSONError err))
  | inr jsonValueTimestamp => UnmarshalJSON_decoded valueTimestamp b jsonValueTimestamp
  end.
End UnmarshalJSON.

(** ** Strings of ASCII bytes *)

(** The bytes below 0x80. *)
Definition is_ascii_byte (c : ascii) : Prop := byte_val c < 0x80.

Fixpoint all_ascii (s : string) : Prop :=
  match s with
  | EmptyString => True
  | String c s' => is_ascii_byte c ∧ all_ascii s'
  end.

(** What [appendString] writes for one ASCII byte. *)
Definition ascii_piece (c : ascii) : string :=
  if htmlSafe (byte_val c) then String c "" else escape_byte (byte_val c).

(** The JSON value of an optional string. *)
Definition jvalue_of (v : option string) : jvalue :=
  match v with
  | None => Jnull
  | Some s => Jstring s
  end.

(** The Go value [int64(float64(t))]. *)
Definition int64_float64 (unspecified : Q → Z) (t : Z) : Z :=
  int64_of_float64 unspecified (float64_of_int64 t).

(** The integer [float64(t)] denotes, for a wide [t]. *)
Definition rounded (a : Z) : Z :=
  round_half_even (a `div` 2 ^ (Z.log2 a - 52)) (a `mod` 2 ^ (Z.log2 a - 52))
    (2 ^ (Z.log2 a - 52)) * 2 ^ (Z.log2 a - 52).

(** A call of the reader that has not run out of fuel, and that leaves fewer
    than [n] bytes of the text when it succeeds. *)
Definition ends_shorter {A} (p : parsed A) (n : nat) : Prop :=
  p ≠ OutOfFuel ∧ ∀ x r, p = Parsed x r → (String.length r < n)%nat.

(** ** Text without commas *)

Fixpoint comma_free (s : string) : Prop :=
  match s with
  | EmptyString => True
  | String c s' => c ≠ ","%char ∧ comma_free s'
  end.

(** What [ValueTimestamp.String] prints for the value. *)
Definition shown_value (valueTimestamp : ValueTimestamp) : string :=
  default "nil" (Value valueTimestamp).

(** * Properties *)

(** ** The documented examples *)

(** [ExampleStore_Hash]: the two hashes the package's documentation prints. *)
Example ExampleStore_Hash :
  Hash (store_ABC now_2017).1 (store_ABC now_2017).2 = "3d6a6976bcf5dfb9" ∧
  Hash (store_ABC (now_2017 + 1)).1 (store_ABC (now_2017 + 1)).2 = "3d670f76bcf310f4".
Proof. split; vm_compute; reflexivity. Qed.

(** ** Timestamp-gated writes *)

Lemma alloc_fresh (h : heap) : h !! alloc h = None.
Proof. apply not_elem_of_dom. unfold alloc. apply is_fresh. Qed.

Lemma deref_insert_eq (h : heap) l e : deref (<[l := e]> h) l = e.
Proof. unfold deref. by rewrite lookup_total_insert_eq. Qed.

Lemma deref_insert_ne (h : heap) l l' e :
  l ≠ l' → deref (<[l := e]> h) l' = deref h l'.
Proof. intros. unfold deref. by rewrite lookup_total_insert_ne. Qed.

(** Both writers are one function of the optional value. *)
Lemma write_timestamped_unfold h store key value timestamp :
  write_timestamped h store key value timestamp =
  match store !! key with
  | None =>
      (<[alloc h := mkVT value timestamp]> h, <[key := alloc h]> store)
  | Some l =>
      if decide (Timestamp (deref h l) < timestamp)
      then (<[l := mkVT value timestamp]> h, store)
      else (h, store)
  end.
Proof. by destruct value. Qed.

(** C2. Timestamp-gated mutation.  A write of an optional value (by
    [SetTimestamped], or by [DeleteTimestamped] for a deletion marker) at
    timestamp [t]: when the key is absent, a new entry [(value, t)] is
    allocated and the key is bound to it; when the key's entry has a timestamp
    strictly below [t], that entry is overwritten in place with [(value, t)]
    and the map is untouched; otherwise neither the map nor any entry
    changes.  The functions have no error result. *)
Theorem write_timestamped_gating (h : heap) (store : Store) (key : string)
    (value : option string) (t : Z) :
  let r := write_timestamped h store key value t in
  (store !! key = None →
     ∃ l, h !! l = None ∧ r = (<[l := mkVT value t]> h, <[key := l]> store) ∧
          entry r.1 r.2 key = Some (mkVT value t)) ∧
  (∀ l, store !! key = Some l → Timestamp (deref h l) < t →
     r = (<[l := mkVT value t]> h, store) ∧
     entry r.1 r.2 key = Some (mkVT value t)) ∧
  (∀ l, store !! key = Some l → t ≤ Timestamp (deref h l) →
     r = (h, store)).
Proof.
  intros r; subst r. rewrite write_timestamped_unfold.
  split; [|split].
  - intros ->. exists (alloc h). split; [apply alloc_fresh|]. split; [done|].
    unfold entry. cbn [fst snd]. by rewrite lookup_insert_eq; cbn; rewrite deref_insert_eq.
  - intros l Hl Hlt. rewrite Hl, decide_True by done. split; [done|].
    unfold entry. cbn [fst snd]. rewrite Hl. cbn. by rewrite deref_insert_eq.
  - intros l -> Hge. by rewrite decide_False by lia.
Qed.

Lemma write_timestamped_gating_witness :
  (∃ l, (∅ : heap) !! l = None ∧
        write_timestamped ∅ ∅ "A" (Some "one") 5
        = (<[l := mkVT (Some "one") 5]> ∅, <[("A" : string) := l]> ∅)) ∧
  write_timestamped state_A5.1 state_A5.2 "A" None 7
  = (<[1%positive := mkVT None 7]> state_A5.1, state_A5.2) ∧
  write_timestamped state_A5.1 state_A5.2 "A" (Some "late") 5 = state_A5.
Proof.
  split; [|split].
  - destruct (write_timestamped_gating ∅ ∅ "A" (Some "one") 5) as [H _].
    destruct (H eq_refl) as (l & Hl & Hr & _). by exists l.
  - destruct (write_timestamped_gating state_A5.1 state_A5.2 "A" None 7)
      as (_ & H & _).
    apply (H 1%positive); [reflexivity | vm_compute; reflexivity].
  - destruct (write_timestamped_gating state_A5.1 state_A5.2 "A" (Some "late") 5)
      as (_ & _ & H).
    apply (H 1%positive); [reflexivity | vm_compute; discriminate].
Defined.

(** ** [Get] *)

(** [Get] only looks at the entry the key denotes. *)
Lemma Get_entry (h : heap) (store : Store) (key : string) :
  Get h store key =
  match entry h store key with
  | Some e => default "" (Value e)
  | None => ""
  end.
Proof. unfold Get, entry. destruct (store !! key); [|done]. cbn. by destruct (Value _). Qed.

(** The entry of the written key after a write that is installed. *)
Lemma write_timestamped_installed h store key value t :
  (entry h store key = None ∨
   ∃ e, entry h store key = Some e ∧ Timestamp e < t) →
  let r := write_timestamped h store key value t in
  entry r.1 r.2 key = Some (mkVT value t).
Proof.
  intros H r. subst r. rewrite write_timestamped_unfold.
  unfold entry in *. destruct (store !! key) as [l|] eqn:Hk; cbn in H.
  - destruct H as [?|(e & He & Hts)]; [done|]. simplify_eq.
    rewrite decide_True by done. cbn [fst snd]. rewrite Hk. cbn.
    by rewrite deref_insert_eq.
  - cbn [fst snd]. rewrite lookup_insert_eq. cbn. by rewrite deref_insert_eq.
Qed.

(** C8. [Get] returns the stored value of a live entry, and the empty string
    when the key is absent or its entry is a deletion marker; after a
    [DeleteTimestamped] whose timestamp is strictly newer than that of the
    key's live entry, [Get] returns the empty string. *)
Theorem Get_contract (h : heap) (store : Store) (key : string) :
  (∀ e v, entry h store key = Some e → Value e = Some v →
     Get h store key = v) ∧
  (entry h store key = None → Get h store key = "") ∧
  (∀ e, entry h store key = Some e → Value e = None →
     Get h store key = "") ∧
  (∀ e v t, entry h store key = Some e → Value e = Some v →
     Timestamp e < t →
     let r := DeleteTimestamped h store key t in
     entry r.1 r.2 key = Some (mkVT None t) ∧ Get r.1 r.2 key = "").
Proof.
  split; [|split; [|split]].
  - intros e v He Hv. by rewrite Get_entry, He, Hv.
  - intros He. by rewrite Get_entry, He.
  - intros e He Hv. by rewrite Get_entry, He, Hv.
  - intros e v t He Hv Hlt r.
    assert (entry r.1 r.2 key = Some (mkVT None t)) as Hr.
    { apply (write_timestamped_installed h store key None t); eauto. }
    split; [done|]. by rewrite Get_entry, Hr.
Qed.

Lemma Get_contract_witness :
  Get state_A5.1 state_A5.2 "A" = "one" ∧
  Get state_A5.1 state_A5.2 "B" = "" ∧
  Get (DeleteTimestamped ∅ ∅ "A" 5).1 (DeleteTimestamped ∅ ∅ "A" 5).2 "A" = "" ∧
  Get (DeleteTimestamped state_A5.1 state_A5.2 "A" 6).1
      (DeleteTimestamped state_A5.1 state_A5.2 "A" 6).2 "A" = "".
Proof.
  split; [|split; [|split]].
  - by apply (Get_contract state_A5.1 state_A5.2 "A") with (mkVT (Some "one") 5).
  - by apply (Get_contract state_A5.1 state_A5.2 "B").
  - by apply (Get_contract (DeleteTimestamped ∅ ∅ "A" 5).1
                (DeleteTimestamped ∅ ∅ "A" 5).2 "A") with (mkVT None 5).
  - apply (Get_contract state_A5.1 state_A5.2 "A")
      with (e := mkVT (Some "one") 5) (v := "one" : string);
      [reflexivity | reflexivity | vm_compute; reflexivity].
Defined.

(** C9. A live empty string is indistinguishable from absence through
    [Get]: once [SetTimestamped(key, "", t)] is installed (the key was absent,
    or its entry was strictly older than [t]), the key's entry is live with
    timestamp [t], and [Get] returns the empty string, which is also what it
    returns in any state where the key is absent or deleted. *)
Theorem Get_live_empty_string (h : heap) (store : Store) (key : string) (t : Z) :
  (entry h store key = None ∨
   ∃ e, entry h store key = Some e ∧ Timestamp e < t) →
  let r := SetTimestamped h store key "" t in
  entry r.1 r.2 key = Some (mkVT (Some "") t) ∧
  Get r.1 r.2 key = "" ∧
  ∀ (h' : heap) (store' : Store),
    (entry h' store' key = None ∨
     ∃ e, entry h' store' key = Some e ∧ Value e = None) →
    Get h' store' key = Get r.1 r.2 key.
Proof.
  intros H r.
  pose proof (write_timestamped_installed h store key (Some "") t H) as He.
  cbn in He. fold r in He.
  assert (Get r.1 r.2 key = "") as HG by (by rewrite Get_entry, He).
  split; [done|]. split; [done|].
  intros h' store' H'. rewrite HG, Get_entry.
  by destruct H' as [->|(e & -> & ->)].
Qed.

Lemma Get_live_empty_string_witness :
  let r := SetTimestamped state_A5.1 state_A5.2 "A" "" 6 in
  entry r.1 r.2 "A" = Some (mkVT (Some "") 6) ∧
  Get r.1 r.2 "A" = "" ∧
  Get ∅ ∅ "A" = Get r.1 r.2 "A".
Proof.
  intros r.
  destruct (Get_live_empty_string state_A5.1 state_A5.2 "A" 6) as (H1 & H2 & H3).
  { right. exists (mkVT (Some "one") 5). split; [reflexivity|].
    vm_compute. reflexivity. }
  split; [exact H1|]. split; [exact H2|].
  apply H3. left. reflexivity.
Defined.

(** ** Loops over a map *)

(** A visit of the entries of a map, in whatever order, names the map. *)
Lemma visit_order (m : Store) (order : list (string * loc)) :
  order ≡ₚ map_to_list m →
  NoDup order.*1 ∧ (list_to_map order : Store) = m.
Proof.
  intros Hp. assert (NoDup order.*1) as Hnd.
  { rewrite Hp. apply NoDup_fst_map_to_list. }
  split; [done|].
  rewrite (list_to_map_proper order (map_to_list m)) by done.
  apply list_to_map_to_list.
Qed.

(** ** [Purge] *)

Lemma Purge_in_lookup (h : heap) (cutoff : Z) (order : list (string * loc)) :
  NoDup order.*1 →
  ∀ (store : Store) (key : string),
    Purge_in order h store cutoff !! key =
    match (list_to_map order : Store) !! key with
    | Some l => if decide (purgeable h cutoff l) then None else store !! key
    | None => store !! key
    end.
Proof.
  unfold Purge_in.
  induction order as [|[k l] order IH]; intros Hnd store key; [done|].
  cbn in Hnd. apply NoDup_cons in Hnd as [Hk Hnd].
  cbn [foldl]. rewrite (IH Hnd). cbn [list_to_map foldr]. unfold Purge_step.
  cbn [fst snd]. fold (purgeable h cutoff l).
  destruct (decide (k = key)) as [->|Hne].
  - rewrite lookup_insert_eq.
    rewrite (not_elem_of_list_to_map_1 order key) by done.
    destruct (decide (purgeable h cutoff l)); [|done].
    by rewrite lookup_delete_eq.
  - rewrite lookup_insert_ne by done.
    assert ((if decide (purgeable h cutoff l) then delete k store else store)
              !! key = store !! key) as ->; [|done].
    destruct (decide (purgeable h cutoff l)); [|done].
    by rewrite lookup_delete_ne.
Qed.

(** C6. Purge boundary.  Whatever the order in which the loop visits the map,
    [Purge(cutoff)] removes exactly the keys whose entry is a deletion marker
    with a timestamp strictly below the cutoff, and leaves every other key
    bound to the entry it had; so a deletion marker whose timestamp equals the
    cutoff stays, and a live entry stays whatever its timestamp. *)
Theorem Purge_boundary (h : heap) (store : Store) (cutoff : Z)
    (order : list (string * loc)) :
  order ≡ₚ map_to_list store →
  let store' := Purge_in order h store cutoff in
  (∀ key, store' !! key = None ↔
     store !! key = None ∨
     ∃ l, store !! key = Some l ∧
          Value (deref h l) = None ∧ Timestamp (deref h l) < cutoff) ∧
  (∀ key l, store' !! key = Some l → store !! key = Some l) ∧
  (∀ key l, store !! key = Some l → Value (deref h l) = None →
     Timestamp (deref h l) = cutoff → store' !! key = Some l) ∧
  (∀ key l, store !! key = Some l → Value (deref h l) ≠ None →
     store' !! key = Some l).
Proof.
  intros Hp store'. destruct (visit_order store order Hp) as [Hnd Hm].
  assert (∀ key, store' !! key =
    match store !! key with
    | Some l => if decide (purgeable h cutoff l) then None else Some l
    | None => None
    end) as Hlook.
  { intros key. unfold store'. rewrite Purge_in_lookup, Hm by done.
    destruct (store !! key); [|done]. by destruct (decide _). }
  split; [|split; [|split]].
  - intros key. rewrite Hlook. destruct (store !! key) as [l|] eqn:Hk.
    + destruct (decide (purgeable h cutoff l)) as [Hp'|Hp'].
      * split; [|done]. intros _. right. exists l. by destruct Hp'.
      * split; [done|]. intros [?|(l' & ? & ? & ?)]; [done|].
        simplify_eq. by destruct Hp'.
    + split; [by left|done].
  - intros key l. rewrite Hlook. destruct (store !! key); [|done].
    by destruct (decide _).
  - intros key l Hk Hv Ht. rewrite Hlook, Hk.
    rewrite decide_False; [done|]. intros [_ ?]. lia.
  - intros key l Hk Hv. rewrite Hlook, Hk.
    rewrite decide_False; [done|]. by intros [? _].
Qed.

(** [Purge] itself is the loop in the order of [map_to_list]. *)
Lemma Purge_boundary_witness :
  let r := DeleteTimestamped state_A5.1 state_A5.2 "B" 9 in
  Purge r.1 r.2 10 !! ("B" : string) = None ∧
  Purge r.1 r.2 9 !! ("B" : string) = Some 2%positive ∧
  Purge r.1 r.2 10 !! ("A" : string) = Some 1%positive.
Proof.
  intros r.
  split; [|split].
  - destruct (Purge_boundary r.1 r.2 10 (map_to_list r.2)) as (H & _);
      [reflexivity|].
    apply H. right. exists 2%positive.
    split; [reflexivity|]. split; [reflexivity|]. vm_compute. reflexivity.
  - destruct (Purge_boundary r.1 r.2 9 (map_to_list r.2)) as (_ & _ & H & _);
      [reflexivity|].
    apply H; reflexivity.
  - destruct (Purge_boundary r.1 r.2 10 (map_to_list r.2)) as (_ & _ & _ & H);
      [reflexivity|].
    apply H; [reflexivity|]. vm_compute. discriminate.
Defined.

(** ** [Absorb] *)

Lemma Absorb_step_lookup (h : heap) (store : Store) k l key :
  Absorb_step h store (k, l) !! key =
  if decide (k = key) then Some (absorbed h (store !! k) l) else store !! key.
Proof.
  unfold Absorb_step, absorbed. cbn [fst snd].
  destruct (decide (k = key)) as [->|Hne].
  - destruct (store !! key) as [l1|] eqn:Hk.
    + destruct (decide _); [by rewrite lookup_insert_eq | done].
    + by rewrite lookup_insert_eq.
  - destruct (store !! k) as [l1|].
    + destruct (decide _); [by rewrite lookup_insert_ne | done].
    + by rewrite lookup_insert_ne.
Qed.

Lemma Absorb_in_lookup (h : heap) (order : list (string * loc)) :
  NoDup order.*1 →
  ∀ (store : Store) (key : string),
    Absorb_in order h store !! key =
    match (list_to_map order : Store) !! key with
    | Some l2 => Some (absorbed h (store !! key) l2)
    | None => store !! key
    end.
Proof.
  unfold Absorb_in.
  induction order as [|[k l] order IH]; intros Hnd store key; [done|].
  cbn in Hnd. apply NoDup_cons in Hnd as [Hk Hnd].
  cbn [foldl]. rewrite (IH Hnd). cbn [list_to_map foldr].
  rewrite Absorb_step_lookup.
  destruct (decide (k = key)) as [->|Hne].
  - rewrite lookup_insert_eq.
    by rewrite (not_elem_of_list_to_map_1 order key) by done.
  - by rewrite lookup_insert_ne by done.
Qed.

(** The receiver after [Absorb], key by key, for any order of the visit. *)
Lemma Absorb_lookup (h : heap) (store store2 : Store)
    (order : list (string * loc)) (key : string) :
  order ≡ₚ map_to_list store2 →
  Absorb_in order h store !! key =
  match store2 !! key with
  | Some l2 => Some (absorbed h (store !! key) l2)
  | None => store !! key
  end.
Proof.
  intros Hp. destruct (visit_order store2 order Hp) as [Hnd Hm].
  by rewrite Absorb_in_lookup, Hm.
Qed.

(** C3. [Absorb], key by key and for any order in which the loop visits the
    donor: a key of the donor ends up bound to the donor's own entry (the
    pointer is copied) exactly when the receiver lacks the key or its entry
    has a strictly smaller timestamp; on equal (or larger) timestamps the
    receiver keeps its entry; keys the donor lacks keep what they had. *)
Theorem Absorb_per_key (h : heap) (store store2 : Store)
    (order : list (string * loc)) :
  order ≡ₚ map_to_list store2 →
  let store' := Absorb_in order h store in
  (∀ key l2, store2 !! key = Some l2 → store !! key = None →
     store' !! key = Some l2) ∧
  (∀ key l l2, store2 !! key = Some l2 → store !! key = Some l →
     Timestamp (deref h l) < Timestamp (deref h l2) →
     store' !! key = Some l2) ∧
  (∀ key l l2, store2 !! key = Some l2 → store !! key = Some l →
     Timestamp (deref h l2) ≤ Timestamp (deref h l) →
     store' !! key = Some l) ∧
  (∀ key, store2 !! key = None → store' !! key = store !! key).
Proof.
  intros Hp store'. unfold store'.
  split; [|split; [|split]].
  - intros key l2 H2 H1. by rewrite (Absorb_lookup _ _ store2), H2, H1.
  - intros key l l2 H2 H1 Hlt.
    rewrite (Absorb_lookup _ _ store2), H2, H1 by done.
    unfold absorbed. by rewrite decide_True.
  - intros key l l2 H2 H1 Hge.
    rewrite (Absorb_lookup _ _ store2), H2, H1 by done.
    unfold absorbed. by rewrite decide_False by lia.
  - intros key H2. by rewrite (Absorb_lookup _ _ store2), H2.
Qed.

Lemma Absorb_per_key_witness :
  Absorb heap12 store1 store2 !! ("D" : string) = store2 !! ("D" : string) ∧
  Absorb heap12 store1 store2 !! ("B" : string) = store2 !! ("B" : string) ∧
  Absorb heap12 store1 store2 !! ("C" : string) = store1 !! ("C" : string) ∧
  Absorb heap12 store1 store2 !! ("A" : string) = store1 !! ("A" : string).
Proof.
  destruct (Absorb_per_key heap12 store1 store2 (map_to_list store2))
    as (H1 & H2 & H3 & H4); [reflexivity|].
  split; [|split; [|split]].
  - eapply H1; reflexivity.
  - eapply H2; [reflexivity | reflexivity | vm_compute; reflexivity].
  - eapply H3; [reflexivity | reflexivity | vm_compute; discriminate].
  - eapply H4; reflexivity.
Defined.

(** ** [Hash] *)

Lemma fnv_Write_fold (hash : Z) (data : string) :
  fnv.Write hash data =
  fold_left
    (λ acc c, (Z.lxor acc (Z.of_N (N_of_ascii c)) * 0x100000001b3) `mod` 2 ^ 64)
    (list_ascii_of_string data) hash.
Proof. revert hash. induction data as [|c data IH]; intros hash; [done|]. apply IH. Qed.

Lemma fnv_Write_app (hash : Z) (a b : string) :
  fnv.Write hash (a +:+ b) = fnv.Write (fnv.Write hash a) b.
Proof. revert hash. induction a as [|c a IH]; intros hash; [done|]. apply IH. Qed.

(** Writing the lines one by one is hashing their concatenation. *)
Lemma fnv_Write_lines {A} (f : A → string) (ks : list A) (hash : Z) :
  foldl (λ hasher k, fnv.Write hasher (f k)) hash ks =
  fnv.Write hash (foldr String.append "" (f <$> ks)).
Proof.
  revert hash. induction ks as [|k ks IH]; intros hash; [done|].
  cbn. by rewrite IH, fnv_Write_app.
Qed.

Lemma string_app_assoc (a b c : string) : (a +:+ b) +:+ c = a +:+ (b +:+ c).
Proof.
  induction a as [|x a IH]; [done|].
  change (String x ((a +:+ b) +:+ c) = String x (a +:+ b +:+ c)). by rewrite IH.
Qed.

Lemma string_of_list_ascii_app (a b : list ascii) :
  string_of_list_ascii (a ++ b) = string_of_list_ascii a +:+ string_of_list_ascii b.
Proof.
  induction a as [|x a IH]; [done|].
  change (String x (string_of_list_ascii (a ++ b))
          = String x (string_of_list_ascii a +:+ string_of_list_ascii b)).
  by rewrite IH.
Qed.

Lemma hex_digits_nibbles (n : nat) (x : Z) (acc : string) :
  hex_digits n x acc =
  string_of_list_ascii
    ((λ i, hex_digit ((x `div` 16 ^ (Z.of_nat n - 1 - Z.of_nat i)) `mod` 16))
       <$> seq 0 n) +:+ acc.
Proof.
  revert x acc. induction n as [|n IH]; intros x acc; [done|].
  cbn [hex_digits]. rewrite IH, seq_S, fmap_app.
  rewrite string_of_list_ascii_app, string_app_assoc. f_equal.
  - f_equal. apply list_fmap_ext. intros i j Hj.
    apply lookup_seq in Hj as [-> Hlt]. cbn [Nat.add].
    rewrite Z.div_div by lia. do 3 f_equal.
    replace (Z.of_nat (S n) - 1 - Z.of_nat i) with (Z.succ (Z.of_nat n - 1 - Z.of_nat i)) by lia.
    rewrite Z.pow_succ_r by lia. done.
  - cbn. replace (Z.of_nat (S n) - 1 - Z.of_nat n) with 0 by lia.
    by rewrite Z.div_1_r.
Qed.

Lemma string_app_nil_r (a : string) : a +:+ "" = a.
Proof.
  induction a as [|x a IH]; [done|].
  change (String x (a +:+ "") = String x a). by rewrite IH.
Qed.

Lemma Sprintf_016x_hex16 (x : Z) : Sprintf_016x x = Hash_spec.hex16 x.
Proof.
  unfold Sprintf_016x, Hash_spec.hex16.
  by rewrite hex_digits_nibbles, string_app_nil_r.
Qed.

(** Sorting is determined by the set of keys. *)
Lemma sort_Strings_unique (order ks : list string) :
  order ≡ₚ ks → Sorted String.le ks → sort_Strings order = ks.
Proof.
  intros Hp Hs. apply (Sorted_unique String.le); [|done|].
  - apply (Sorted_merge_sort String.le).
  - unfold sort_Strings. by rewrite merge_sort_Permutation.
Qed.

Lemma timestamps_lookup h store key :
  timestamps h store !! key = Timestamp <$> entry h store key.
Proof. unfold timestamps, entry. rewrite lookup_fmap. by destruct (store !! key). Qed.

Lemma keys_timestamps h store :
  (map_to_list (timestamps h store)).*1 ≡ₚ (map_to_list store).*1.
Proof.
  unfold timestamps. rewrite map_to_list_fmap, <-list_fmap_compose.
  assert (∀ l : list (string * loc),
            fst ∘ prod_map id (λ l, Timestamp (deref h l)) <$> l = l.*1) as ->; [|done].
  intros l. apply list_fmap_ext. by intros ? [??].
Qed.

Lemma hash_line_spec h store k t :
  timestamps h store !! k = Some t →
  hash_line h store k = Hash_spec.line (k, t).
Proof.
  rewrite timestamps_lookup. unfold hash_line, timestamp_at, Hash_spec.line.
  destruct (entry h store k) as [e|]; [|done]. intros [= <-]. done.
Qed.

(** [Hash] computes the specification's algorithm on the key-sorted list of
    (key, timestamp) pairs, in whatever order the keys were collected. *)
Lemma Hash_in_spec (h : heap) (store : Store) (order : list string)
    (kts : list (string * Z)) :
  order ≡ₚ (map_to_list store).*1 →
  kts ≡ₚ map_to_list (timestamps h store) →
  Sorted (λ a b, String.le a.1 b.1) kts →
  Hash_in order h store = Hash_spec.Hash kts.
Proof.
  intros Ho Hk Hs. unfold Hash_in, Hash_spec.Hash.
  rewrite (sort_Strings_unique order kts.*1).
  - rewrite fnv_Write_lines, Sprintf_016x_hex16. unfold fnv.Sum64.
    rewrite fnv_Write_fold. f_equal. unfold Hash_spec.fnv1a_64.
    do 3 f_equal. rewrite <-list_fmap_compose.
    apply Forall_fmap_ext, Forall_forall. intros [k t] Hin. cbn.
    apply hash_line_spec, elem_of_map_to_list. by rewrite <-Hk.
  - by rewrite Ho, Hk, keys_timestamps.
  - by apply (Sorted_fmap fst (λ a b, String.le a.1 b.1) String.le).
Qed.

Lemma Hash_in_timestamps (h h' : heap) (store store' : Store)
    (order order' : list string) :
  order ≡ₚ (map_to_list store).*1 →
  order' ≡ₚ (map_to_list store').*1 →
  timestamps h' store' = timestamps h store →
  Hash_in order' h' store' = Hash_in order h store.
Proof.
  intros Ho Ho' Ht.
  set (R := λ a b : string * Z, String.le a.1 b.1).
  assert (Total R) as HR by (intros a b; apply (total String.le)).
  set (kts := merge_sort R (map_to_list (timestamps h store))).
  assert (kts ≡ₚ map_to_list (timestamps h store)) as Hk
    by apply merge_sort_Permutation.
  assert (Sorted R kts) as Hs by apply (Sorted_merge_sort R).
  rewrite (Hash_in_spec h store order kts) by done.
  apply Hash_in_spec; [done| by rewrite Ht |done].
Qed.

(** C7, X20. [Hash], for any order in which the keys are collected from the map,
    is the algorithm of the specification applied to the keys in ascending
    order: each key's line "key, newline, decimal timestamp, newline" is fed
    in that order to 64-bit FNV-1a and the result is printed as sixteen
    lowercase hexadecimal digits.  Consequently two stores with the same keys
    and the same timestamp for every key have the same [Hash], whatever
    their values and the order of their construction or enumeration. *)
Theorem Hash_algorithm (h : heap) (store : Store) (order : list string)
    (kts : list (string * Z)) :
  order ≡ₚ (map_to_list store).*1 →
  kts ≡ₚ map_to_list (timestamps h store) →
  Sorted (λ a b, String.le a.1 b.1) kts →
  Hash_in order h store = Hash_spec.Hash kts ∧
  ∀ (h' : heap) (store' : Store) (order' : list string),
    order' ≡ₚ (map_to_list store').*1 →
    (∀ key, Timestamp <$> entry h' store' key = Timestamp <$> entry h store key) →
    Hash_in order' h' store' = Hash_in order h store.
Proof.
  intros Ho Hk Hs. split; [by apply Hash_in_spec|].
  intros h' store' order' Ho' Hts. apply Hash_in_timestamps; [done..|].
  apply map_eq. intros key. by rewrite !timestamps_lookup.
Qed.

Lemma Hash_algorithm_witness :
  Hash_in (map_to_list (store_ABC now_2017).2).*1
    (store_ABC now_2017).1 (store_ABC now_2017).2
  = Hash_spec.Hash [("A", now_2017); ("B", now_2017); ("C", now_2017)] ∧
  ∀ (h' : heap) (store' : Store) (order' : list string),
    order' ≡ₚ (map_to_list store').*1 →
    (∀ key, Timestamp <$> entry h' store' key
            = Timestamp <$> entry (store_ABC now_2017).1 (store_ABC now_2017).2 key) →
    Hash_in order' h' store'
    = Hash_in (map_to_list (store_ABC now_2017).2).*1
        (store_ABC now_2017).1 (store_ABC now_2017).2.
Proof.
  apply (Hash_algorithm (store_ABC now_2017).1 (store_ABC now_2017).2
           (map_to_list (store_ABC now_2017).2).*1
           [("A", now_2017); ("B", now_2017); ("C", now_2017)]).
  - reflexivity.
  - apply (bool_decide_unpack _). vm_compute. exact I.
  - repeat constructor.
Defined.

(** Other values, another order of construction, the same timestamps: the
    same hash. *)
Example Hash_ignores_values :
  Hash (store_CBA now_2017).1 (store_CBA now_2017).2
  = Hash (store_ABC now_2017).1 (store_ABC now_2017).2.
Proof. vm_compute. reflexivity. Qed.

(** ** Writes and the other keys *)

Lemma closed_lookup h store k l :
  closed h store → store !! k = Some l → is_Some (h !! l).
Proof. intros Hc Hk. exact (Hc k l Hk). Qed.

Lemma exclusive_lookup store k1 k2 l :
  exclusive store → store !! k1 = Some l → store !! k2 = Some l → k1 = k2.
Proof. intros He H1 H2. exact (He k1 l H1 k2 l H2 eq_refl). Qed.

Lemma closed_not_alloc h store k :
  closed h store → store !! k ≠ Some (alloc h).
Proof.
  intros Hc Hk. destruct (closed_lookup _ _ _ _ Hc Hk) as [e He].
  by rewrite alloc_fresh in He.
Qed.

(** A write keeps the state well formed. *)
Lemma write_timestamped_closed h store key value t :
  closed h store →
  closed (write_timestamped h store key value t).1
         (write_timestamped h store key value t).2.
Proof.
  intros Hc. rewrite write_timestamped_unfold.
  destruct (store !! key) as [l|] eqn:Hk.
  - destruct (decide _); [|done]. cbn. intros k' l' Hk'.
    destruct (decide (l = l')) as [->|]; [by rewrite lookup_insert_eq|].
    rewrite lookup_insert_ne by done. by apply (Hc k').
  - cbn. intros k' l'. rewrite lookup_insert. destruct (decide (key = k')).
    + intros [= <-]. by rewrite lookup_insert_eq.
    + intros Hk'. destruct (decide (alloc h = l')) as [<-|].
      * by rewrite lookup_insert_eq.
      * rewrite lookup_insert_ne by done. by apply (Hc k').
Qed.

Lemma write_timestamped_exclusive h store key value t :
  closed h store → exclusive store →
  exclusive (write_timestamped h store key value t).2.
Proof.
  intros Hc He. rewrite write_timestamped_unfold.
  destruct (store !! key) as [l|] eqn:Hk.
  - by destruct (decide _).
  - cbn. intros k1 l1 H1 k2 l2 H2 <-. revert H1 H2.
    rewrite !lookup_insert.
    destruct (decide (key = k1)) as [<-|], (decide (key = k2)) as [<-|];
      try done.
    + intros [= <-] H2. by destruct (closed_not_alloc h store k2).
    + intros H1 [= <-]. by destruct (closed_not_alloc h store k1).
    + intros H1 H2. by apply (exclusive_lookup store k1 k2 l1).
Qed.

(** What every key denotes after a write. *)
Lemma write_timestamped_entry h store key value t key' :
  closed h store → exclusive store →
  entry (write_timestamped h store key value t).1
        (write_timestamped h store key value t).2 key' =
  if decide (key = key')
  then Some (lww (entry h store key) (mkVT value t))
  else entry h store key'.
Proof.
  intros Hc He. rewrite write_timestamped_unfold. unfold entry, lww.
  destruct (store !! key) as [l|] eqn:Hk; cbn.
  - destruct (decide (Timestamp (deref h l) < t)); cbn.
    + destruct (decide (key = key')) as [<-|Hne].
      * rewrite Hk. cbn. by rewrite deref_insert_eq.
      * destruct (store !! key') as [l'|] eqn:Hk'; [|done]. cbn.
        rewrite deref_insert_ne; [done|]. intros <-.
        by destruct Hne; apply (exclusive_lookup store key key' l).
    + destruct (decide (key = key')) as [<-|Hne]; [|done]. by rewrite Hk.
  - rewrite lookup_insert. destruct (decide (key = key')) as [<-|Hne]; cbn.
    + by rewrite deref_insert_eq.
    + destruct (store !! key') as [l'|] eqn:Hk'; [|done]. cbn.
      rewrite deref_insert_ne; [done|]. intros <-.
      by destruct (closed_not_alloc h store key').
Qed.

(** ** [Absorb] against the donor's writes replayed *)

Lemma replay_entry (writes : list (string * ValueTimestamp)) :
  NoDup writes.*1 →
  ∀ (h : heap) (store : Store) (key : string),
    closed h store → exclusive store →
    entry (replay writes h store).1 (replay writes h store).2 key =
    match (list_to_map writes : gmap string ValueTimestamp) !! key with
    | Some e => Some (lww (entry h store key) e)
    | None => entry h store key
    end.
Proof.
  unfold replay.
  induction writes as [|[k e] writes IH]; intros Hnd h store key Hc He; [done|].
  cbn in Hnd. apply NoDup_cons in Hnd as [Hk Hnd].
  pose proof (write_timestamped_closed h store k (Value e) (Timestamp e) Hc) as Hc'.
  pose proof (write_timestamped_exclusive h store k (Value e) (Timestamp e) Hc He) as He'.
  pose proof (write_timestamped_entry h store k (Value e) (Timestamp e) key Hc He) as Hent.
  change (foldl replay_step (h, store) ((k, e) :: writes))
    with (foldl replay_step
            (write_timestamped h store k (Value e) (Timestamp e)) writes).
  destruct (write_timestamped h store k (Value e) (Timestamp e)) as [h1 s1].
  cbn [fst snd] in Hc', He', Hent. rewrite (IH Hnd h1 s1 key Hc' He'), Hent.
  replace (mkVT (Value e) (Timestamp e)) with e by (by destruct e).
  rewrite list_to_map_cons, lookup_insert.
  destruct (decide (k = key)) as [->|Hne]; [|done].
  by rewrite (not_elem_of_list_to_map_1 writes key) by done.
Qed.

Lemma writes_of_lookup (h : heap) (store2 : Store)
    (writes : list (string * ValueTimestamp)) :
  writes ≡ₚ writes_of h store2 →
  NoDup writes.*1 ∧
  (list_to_map writes : gmap string ValueTimestamp) = deref h <$> store2.
Proof.
  intros Hp.
  assert ((writes_of h store2).*1 = (map_to_list store2).*1) as Hfst.
  { unfold writes_of. rewrite <-list_fmap_compose.
    apply list_fmap_ext. by intros ? [??]. }
  assert (NoDup writes.*1) as Hnd.
  { rewrite Hp, Hfst. apply NoDup_fst_map_to_list. }
  split; [done|].
  rewrite (list_to_map_proper writes (writes_of h store2)) by done.
  unfold writes_of. rewrite list_to_map_fmap. by rewrite list_to_map_to_list.
Qed.

(** The entry under a key after [Absorb], read in the (unchanged) heap. *)
Lemma Absorb_entry (h : heap) (store store2 : Store)
    (order : list (string * loc)) (key : string) :
  order ≡ₚ map_to_list store2 →
  entry h (Absorb_in order h store) key =
  match entry h store2 key with
  | Some e => Some (lww (entry h store key) e)
  | None => entry h store key
  end.
Proof.
  intros Hp. unfold entry. rewrite (Absorb_lookup h store store2 order key Hp).
  destruct (store2 !! key) as [l2|]; [|done]. cbn. f_equal.
  unfold absorbed, lww. destruct (store !! key) as [l|]; [|done]. cbn.
  by destruct (decide _).
Qed.

(** C4, X19. [Absorb] is equivalent to replaying the donor's writes.  For a
    receiver in a state the package builds (its pointers are allocated and no
    object sits under two of its keys), applying the donor's entries one by
    one, in any order ([SetTimestamped] for a live entry, [DeleteTimestamped]
    for a deletion marker), gives every key the same value-or-deletion and the
    same timestamp as [Absorb] does, whatever the order of its loop; hence the
    two results also have the same [Hash]. *)
Theorem Absorb_replays_writes (h : heap) (store store2 : Store)
    (writes : list (string * ValueTimestamp)) (order : list (string * loc)) :
  closed h store → exclusive store →
  writes ≡ₚ writes_of h store2 →
  order ≡ₚ map_to_list store2 →
  let r := replay writes h store in
  let store' := Absorb_in order h store in
  (∀ key, entry r.1 r.2 key = entry h store' key) ∧
  (∀ o1 o2, o1 ≡ₚ (map_to_list r.2).*1 → o2 ≡ₚ (map_to_list store').*1 →
     Hash_in o1 r.1 r.2 = Hash_in o2 h store').
Proof.
  intros Hc He Hw Ho r store'.
  assert (∀ key, entry r.1 r.2 key = entry h store' key) as Hent.
  { intros key. unfold r, store'.
    destruct (writes_of_lookup h store2 writes Hw) as [Hnd Hm].
    rewrite replay_entry, Hm, (Absorb_entry h store store2) by done.
    unfold entry at 3. rewrite lookup_fmap. by destruct (store2 !! key). }
  split; [done|]. intros o1 o2 Ho1 Ho2.
  apply Hash_in_timestamps; [done..|].
  apply map_eq. intros key. by rewrite !timestamps_lookup, Hent.
Qed.

Lemma Absorb_replays_writes_witness :
  let r := replay (reverse (writes_of heap12 store2)) heap12 store1 in
  let store' := Absorb_in (map_to_list store2) heap12 store1 in
  (∀ key, entry r.1 r.2 key = entry heap12 store' key) ∧
  (∀ o1 o2, o1 ≡ₚ (map_to_list r.2).*1 → o2 ≡ₚ (map_to_list store').*1 →
     Hash_in o1 r.1 r.2 = Hash_in o2 heap12 store').
Proof.
  apply (Absorb_replays_writes heap12 store1 store2
           (reverse (writes_of heap12 store2)) (map_to_list store2)).
  - apply (bool_decide_unpack _). vm_compute. exact I.
  - apply (bool_decide_unpack _). vm_compute. exact I.
  - apply (bool_decide_unpack _). vm_compute. exact I.
  - reflexivity.
Defined.

(** The receiver of [two_stores] after the donor's writes, replayed in
    reverse order, and after [Absorb]. *)
Example Absorb_replays_writes_example :
  let r := replay (reverse (writes_of heap12 store2)) heap12 store1 in
  (λ k, entry r.1 r.2 k) <$> ["A"; "B"; "C"; "D"; "E"] =
  [Some (mkVT (Some "one") 1); Some (mkVT None 2); Some (mkVT (Some "three") 3);
   Some (mkVT (Some "five") 2); None] ∧
  (λ k, entry heap12 (Absorb heap12 store1 store2) k) <$> ["A"; "B"; "C"; "D"; "E"] =
  [Some (mkVT (Some "one") 1); Some (mkVT None 2); Some (mkVT (Some "three") 3);
   Some (mkVT (Some "five") 2); None].
Proof. split; vm_compute; reflexivity. Qed.
(** ** Sequences of operations *)

Lemma store_of_closed w s : world_closed w → closed (mem w) (store_of w s).
Proof.
  intros Hw. unfold store_of. destruct (stores w !! s) as [st|] eqn:Hs; cbn.
  - exact (Hw s st Hs).
  - intros k l. by rewrite lookup_empty.
Qed.

Lemma store_of_insert h (sts : gmap nat Store) s0 st s :
  store_of (mkWorld h (<[s0 := st]> sts)) s =
  if decide (s0 = s) then st else default ∅ (sts !! s).
Proof.
  unfold store_of. cbn. rewrite lookup_insert. by destruct (decide (s0 = s)).
Qed.

(** The loops do not depend on the order of the visit. *)
Lemma Purge_lookup (h : heap) (store : Store) (cutoff : Z) (key : string) :
  Purge h store cutoff !! key =
  match store !! key with
  | Some l => if decide (purgeable h cutoff l) then None else Some l
  | None => None
  end.
Proof.
  unfold Purge. destruct (visit_order store (map_to_list store)) as [Hnd Hm]; [done|].
  rewrite Purge_in_lookup, Hm by done. destruct (store !! key); [|done].
  by destruct (decide _).
Qed.

Lemma Purge_in_order (h : heap) (store : Store) (cutoff : Z) order :
  order ≡ₚ map_to_list store → Purge_in order h store cutoff = Purge h store cutoff.
Proof.
  intros Hp. apply map_eq. intros key. rewrite Purge_lookup.
  destruct (visit_order store order Hp) as [Hnd Hm].
  rewrite Purge_in_lookup, Hm by done. destruct (store !! key); [|done].
  by destruct (decide _).
Qed.

Lemma Absorb_in_order (h : heap) (store store2 : Store) order :
  order ≡ₚ map_to_list store2 → Absorb_in order h store = Absorb h store store2.
Proof.
  intros Hp. apply map_eq. intros key. unfold Absorb.
  by rewrite !(Absorb_lookup h store store2).
Qed.

(** A write never lowers the timestamp of an allocated object, and frees none. *)
Lemma write_timestamped_heap h store key value t l :
  is_Some (h !! l) →
  is_Some ((write_timestamped h store key value t).1 !! l) ∧
  Timestamp (deref h l) ≤ Timestamp (deref (write_timestamped h store key value t).1 l).
Proof.
  intros Hl. rewrite write_timestamped_unfold.
  destruct (store !! key) as [l0|] eqn:Hk.
  - destruct (decide (Timestamp (deref h l0) < t)); cbn [fst]; [|split; [done|lia]].
    destruct (decide (l0 = l)) as [->|Hne].
    + rewrite lookup_insert_eq, deref_insert_eq. cbn. split; [done|lia].
    + rewrite lookup_insert_ne, deref_insert_ne by done. split; [done|lia].
  - cbn [fst]. assert (alloc h ≠ l) as Hne.
    { intros <-. rewrite alloc_fresh in Hl. by destruct Hl. }
    rewrite lookup_insert_ne, deref_insert_ne by done. split; [done|lia].
Qed.

(** A write leaves the pointers of the store in place and adds at most one. *)
Lemma write_timestamped_lookup h store key value t key' l :
  store !! key' = Some l →
  (write_timestamped h store key value t).2 !! key' = Some l.
Proof.
  intros Hk'. rewrite write_timestamped_unfold.
  destruct (store !! key) as [l0|] eqn:Hk.
  - by destruct (decide _).
  - cbn. rewrite lookup_insert_ne; [done|]. intros ->. congruence.
Qed.

(** A step never lowers the timestamp of an allocated object, and frees none. *)
Lemma step_heap w o l :
  is_Some (mem w !! l) →
  is_Some (mem (step w o) !! l) ∧
  Timestamp (deref (mem w) l) ≤ Timestamp (deref (mem (step w o)) l).
Proof.
  intros Hl.
  destruct o as [s key value t|s key t|s cutoff|s s2]; cbn [step mem].
  - apply (write_timestamped_heap _ _ key (Some value) t l Hl).
  - apply (write_timestamped_heap _ _ key None t l Hl).
  - split; [done|lia].
  - split; [done|lia].
Qed.

(** What a step does to the pointer under a key of a store: it stays, or a
    [Purge] of that store removes it, or an [Absorb] into that store replaces
    it with a pointer of the donor to a strictly newer entry. *)
Lemma step_pointer w o s key l :
  store_of w s !! key = Some l →
  store_of (step w o) s !! key = Some l ∨
  (store_of (step w o) s !! key = None ∧ ∃ cutoff, o = OpPurge s cutoff) ∨
  (∃ s2 l', o = OpAbsorb s s2 ∧ store_of w s2 !! key = Some l' ∧
            store_of (step w o) s !! key = Some l' ∧
            Timestamp (deref (mem w) l) < Timestamp (deref (mem w) l')).
Proof.
  intros Hk.
  destruct o as [s0 k value t|s0 k t|s0 cutoff|s0 s2]; cbn [step];
    rewrite store_of_insert; fold (store_of w s);
    (destruct (decide (s0 = s)) as [->|Hne]; [|by left]).
  - left. by apply (write_timestamped_lookup _ _ k (Some value) t).
  - left. by apply (write_timestamped_lookup _ _ k None t).
  - rewrite Purge_lookup, Hk. destruct (decide _); [|by left].
    right. left. split; [done|]. by exists cutoff.
  - unfold Absorb. rewrite (Absorb_lookup _ _ (store_of w s2)) by done.
    destruct (store_of w s2 !! key) as [l2|] eqn:H2; [|by left].
    rewrite Hk. unfold absorbed. destruct (decide _) as [Hlt|]; [|by left].
    right. right. exists s2, l2. by rewrite H2.
Qed.

Lemma step_closed w o : world_closed w → world_closed (step w o).
Proof.
  intros Hw.
  assert (∀ s st, stores (step w o) !! s = Some st →
            st = store_of (step w o) s) as Hst.
  { intros s st Hs. unfold store_of. by rewrite Hs. }
  intros s st Hs. rewrite (Hst s st Hs). clear st Hs Hst.
  intros key l Hk.
  assert (∀ s' k' l', store_of w s' !! k' = Some l' →
            is_Some (mem (step w o) !! l')) as Hold.
  { intros s' k' l' H'. apply step_heap.
    exact (closed_lookup _ _ _ _ (store_of_closed w s' Hw) H'). }
  destruct o as [s0 k value t|s0 k t|s0 cutoff|s0 s2]; cbn [step] in *;
    rewrite store_of_insert in Hk; fold (store_of w s) in Hk;
    (destruct (decide (s0 = s)) as [->|Hne]; [|by apply (Hold s key l)]).
  - by apply (write_timestamped_closed _ _ k (Some value) t
                (store_of_closed w s Hw) key l).
  - by apply (write_timestamped_closed _ _ k None t
                (store_of_closed w s Hw) key l).
  - rewrite Purge_lookup in Hk.
    destruct (store_of w s !! key) as [l1|] eqn:H1; [|done].
    destruct (decide _); [done|]. simplify_eq. by apply (Hold s key l).
  - unfold Absorb in Hk.
    rewrite (Absorb_lookup _ _ (store_of w s2)) in Hk by done.
    destruct (store_of w s2 !! key) as [l2|] eqn:H2.
    + injection Hk as <-. unfold absorbed.
      destruct (store_of w s !! key) as [l1|] eqn:H1.
      * destruct (decide _); [by apply (Hold s2 key l2)|by apply (Hold s key l1)].
      * by apply (Hold s2 key l2).
    + by apply (Hold s key l).
Qed.

(** One step: a key that is present before and after has not gone back in
    time. *)
Lemma step_monotone w o s key e1 e2 :
  world_closed w →
  entry_in w s key = Some e1 → entry_in (step w o) s key = Some e2 →
  Timestamp e1 ≤ Timestamp e2.
Proof.
  intros Hw. unfold entry_in, entry.
  destruct (store_of w s !! key) as [l|] eqn:Hk; [|done]. cbn. intros [= <-].
  pose proof (closed_lookup _ _ _ _ (store_of_closed w s Hw) Hk) as Hl.
  destruct (step_pointer w o s key l Hk)
    as [Hk'|[[Hk' _]|(s2 & l' & -> & H2 & Hk' & Hlt)]];
    rewrite Hk'; cbn; [| done |]; intros [= <-].
  - by apply step_heap.
  - cbn [step mem]. lia.
Qed.

Lemma trace_step w ops (n : nat) w1 o :
  trace w ops !! n = Some w1 → ops !! n = Some o →
  trace w ops !! S n = Some (step w1 o).
Proof.
  revert w n. induction ops as [|o' ops IH]; intros w n; [done|].
  destruct n as [|n]; cbn.
  - intros [= <-] [= <-]. by destruct ops.
  - apply IH.
Qed.

Lemma trace_closed w ops (n : nat) wn :
  world_closed w → trace w ops !! n = Some wn → world_closed wn.
Proof.
  revert w n. induction ops as [|o ops IH]; intros w n Hw.
  - destruct n; [|done]. by intros [= <-].
  - destruct n as [|n]; cbn; [by intros [= <-]|].
    apply IH. by apply step_closed.
Qed.

Lemma trace_length w ops (n : nat) wn :
  trace w ops !! n = Some wn → (n ≤ List.length ops)%nat.
Proof.
  revert w n. induction ops as [|o ops IH]; intros w n.
  - by destruct n.
  - destruct n as [|n]; cbn; [lia|]. intros H. apply IH in H. lia.
Qed.

(** Over any stretch of a run in which the key stays present, its timestamp
    at the end is at least its timestamp at the start. *)
Lemma trace_monotone w ops s key (d i : nat) wi wj ei ej :
  world_closed w →
  trace w ops !! i = Some wi → trace w ops !! (i + d)%nat = Some wj →
  (∀ (m : nat) wm, (i ≤ m ≤ i + d)%nat → trace w ops !! m = Some wm →
     is_Some (entry_in wm s key)) →
  entry_in wi s key = Some ei → entry_in wj s key = Some ej →
  Timestamp ei ≤ Timestamp ej.
Proof.
  intros Hw. revert i wi ei.
  induction d as [|d IH]; intros i wi ei Hi Hj Hpres Hei Hej.
  - rewrite Nat.add_0_r in Hj. simplify_eq. lia.
  - assert (i < List.length ops)%nat as Hlen.
    { apply trace_length in Hj. lia. }
    destruct (lookup_lt_is_Some_2 ops i Hlen) as [o Ho].
    pose proof (trace_step w ops i wi o Hi Ho) as Hi'.
    destruct (Hpres (S i) (step wi o)) as [e1 He1]; [lia|done|].
    trans (Timestamp e1).
    + apply (step_monotone wi o s key); [|done..].
      by apply (trace_closed w ops i).
    + apply (IH (S i) (step wi o) e1); [done| |intros m wm ?; apply Hpres; lia|done..].
      by replace (S i + d)%nat with (i + S d)%nat by lia.
Qed.

(** C10, X21. Per-key timestamp monotonicity.  In any run of [SetTimestamped],
    [DeleteTimestamped], [Purge] and [Absorb] over any number of stores,
    started in a state whose stores hold allocated objects, the timestamp of a
    key of a store never decreases for as long as the key stays present (in
    particular from one operation to the next), even when stores share
    entries; and a key that is present before an operation and absent after
    it was removed by a [Purge] of that store. *)
Theorem timestamp_monotone (w : world) (ops : list op) (s : nat) (key : string) :
  world_closed w →
  (∀ (i j : nat) wi wj ei ej,
     (i ≤ j)%nat →
     trace w ops !! i = Some wi → trace w ops !! j = Some wj →
     (∀ (m : nat) wm, (i ≤ m ≤ j)%nat → trace w ops !! m = Some wm →
        is_Some (entry_in wm s key)) →
     entry_in wi s key = Some ei → entry_in wj s key = Some ej →
     Timestamp ei ≤ Timestamp ej) ∧
  (∀ (n : nat) w1 w2 o,
     trace w ops !! n = Some w1 → trace w ops !! S n = Some w2 →
     ops !! n = Some o →
     is_Some (entry_in w1 s key) → entry_in w2 s key = None →
     ∃ cutoff, o = OpPurge s cutoff).
Proof.
  intros Hw. split.
  - intros i j wi wj ei ej Hij Hi Hj Hpres Hei Hej.
    replace j with (i + (j - i))%nat in Hj, Hpres by lia.
    by apply (trace_monotone w ops s key (j - i) i wi wj).
  - intros n w1 w2 o H1 H2 Ho [e1 He1] He2.
    rewrite (trace_step w ops n w1 o H1 Ho) in H2. injection H2 as <-.
    unfold entry_in, entry in He1, He2.
    destruct (store_of w1 s !! key) as [l|] eqn:Hk; [|done].
    destruct (step_pointer w1 o s key l Hk)
      as [Hk'|[[_ ?]|(s2 & l' & _ & _ & Hk' & _)]]; [|done|];
      by rewrite Hk' in He2.
Qed.

Lemma timestamp_monotone_witness :
  (∀ (i j : nat) wi wj ei ej,
     (i ≤ j)%nat →
     trace world0 overview !! i = Some wi → trace world0 overview !! j = Some wj →
     (∀ (m : nat) wm, (i ≤ m ≤ j)%nat → trace world0 overview !! m = Some wm →
        is_Some (entry_in wm 1 "C")) →
     entry_in wi 1 "C" = Some ei → entry_in wj 1 "C" = Some ej →
     Timestamp ei ≤ Timestamp ej) ∧
  (∀ (n : nat) w1 w2 o,
     trace world0 overview !! n = Some w1 → trace world0 overview !! S n = Some w2 →
     overview !! n = Some o →
     is_Some (entry_in w1 1 "C") → entry_in w2 1 "C" = None →
     ∃ cutoff, o = OpPurge 1 cutoff).
Proof.
  apply (timestamp_monotone world0 overview 1 "C").
  apply (bool_decide_unpack _). vm_compute. exact I.
Defined.

(** In the overview program, key ["C"] of store 1 goes from timestamp 1 to
    timestamp 2 when store 2 is absorbed, and the purge removes key ["B"]. *)
Example overview_timestamps :
  (λ w, (Timestamp <$> entry_in w 1 "C", Timestamp <$> entry_in w 1 "B"))
    <$> drop 10 (trace world0 overview)
  = [(Some 1, Some 1); (Some 2, Some 2); (Some 2, None)].
Proof. vm_compute. reflexivity. Qed.

(** ** The overview example of the documentation *)

(** [Example_overview]: the three lines the example prints, with the two
    stores before the merge and store 1 after it. *)
Example Example_overview :
  let before := foldl step world0 (take 10 overview) in
  let after := step before (OpAbsorb 1 2) in
  SimpleString (mem before) (store_of before 1) = "A=one,B=two,C=three,E=eight,F/deleted" ∧
  SimpleString (mem before) (store_of before 2) = "B/deleted,C=four,D=five,E=six,F=seven" ∧
  SimpleString (mem after) (store_of after 1) = "A=one,B/deleted,C=four,D=five,E=eight,F/deleted".
Proof. repeat split; vm_compute; reflexivity. Qed.

(** [ExampleValueTimestamp_String] *)
Example ExampleValueTimestamp_String :
  ValueTimestamp_String (mkVT (Some "one") 1) = "one,1" ∧
  ValueTimestamp_String (mkVT None 2) = "nil,2".
Proof. split; reflexivity. Qed.

(** [ExampleStore_Get] *)
Example ExampleStore_Get :
  let '(h, s) := Store_Set 10 ∅ ∅ "A" "one" in
  let '(h, s) := Store_Delete 11 h s "B" in
  Get h s <$> ["A"; "B"; "C"] = ["one"; ""; ""].
Proof. vm_compute. reflexivity. Qed.

(** * Further properties of the store *)

Lemma Absorb_lookup_map (h : heap) (store store2 : Store) (key : string) :
  Absorb h store store2 !! key =
  match store2 !! key with
  | Some l2 => Some (absorbed h (store !! key) l2)
  | None => store !! key
  end.
Proof. unfold Absorb. by apply Absorb_lookup. Qed.

Lemma absorbed_idem (h : heap) (mine : option loc) (l2 : loc) :
  absorbed h (Some (absorbed h mine l2)) l2 = absorbed h mine l2.
Proof.
  unfold absorbed. destruct mine as [l|].
  - destruct (decide (Timestamp (deref h l) < Timestamp (deref h l2))) as [Hlt|Hge].
    + by destruct (decide _).
    + by rewrite decide_False.
  - by destruct (decide _).
Qed.

(** X1. The loops of [Purge] and [Absorb] range over a Go map, whose order
    of iteration is unspecified: whatever the order of the visit, each loop
    ends with the same map. *)
Theorem range_order_irrelevant (h : heap) (store store2 : Store) (cutoff : Z)
    (order order2 : list (string * loc)) :
  order ≡ₚ map_to_list store → order2 ≡ₚ map_to_list store2 →
  Purge_in order h store cutoff = Purge h store cutoff ∧
  Absorb_in order2 h store = Absorb h store store2.
Proof.
  intros Ho Ho2. split.
  - by apply Purge_in_order.
  - by apply Absorb_in_order.
Qed.

Lemma range_order_irrelevant_witness :
  Purge_in (reverse (map_to_list store1)) heap12 store1 2 = Purge heap12 store1 2 ∧
  Absorb_in (reverse (map_to_list store2)) heap12 store1 = Absorb heap12 store1 store2.
Proof.
  apply (range_order_irrelevant heap12 store1 store2 2
           (reverse (map_to_list store1)) (reverse (map_to_list store2))).
  - apply (bool_decide_unpack _). vm_compute. exact I.
  - apply (bool_decide_unpack _). vm_compute. exact I.
Defined.

(** X2. [Absorb] is idempotent: absorbing the same donor a second time
    changes nothing, pointer for pointer. *)
Theorem Absorb_idempotent (h : heap) (store store2 : Store) :
  Absorb h (Absorb h store store2) store2 = Absorb h store store2.
Proof.
  apply map_eq. intros key. rewrite !Absorb_lookup_map.
  destruct (store2 !! key) as [l2|]; [|done].
  by rewrite absorbed_idem.
Qed.

(** X3. [Purge] is invisible to [Get]: the keys it removes are deletion
    markers, for which [Get] already returned the empty string. *)
Theorem Get_Purge (h : heap) (store : Store) (cutoff : Z) (key : string) :
  Get h (Purge h store cutoff) key = Get h store key.
Proof.
  unfold Get. rewrite Purge_lookup.
  destruct (store !! key) as [l|]; [|done].
  destruct (decide (purgeable h cutoff l)) as [[Hv _]|]; [|done].
  by rewrite Hv.
Qed.

(** X4. Two purges in a row are one purge at the later cutoff; in
    particular purging twice at the same cutoff is purging once. *)
Theorem Purge_Purge (h : heap) (store : Store) (cutoff1 cutoff2 : Z) :
  Purge h (Purge h store cutoff1) cutoff2 = Purge h store (cutoff1 `max` cutoff2).
Proof.
  apply map_eq. intros key. rewrite !Purge_lookup.
  destruct (store !! key) as [l|]; [|done]. unfold purgeable.
  destruct (decide (Value (deref h l) = None ∧ Timestamp (deref h l) < cutoff1))
    as [[Hv H1]|H1].
  - rewrite decide_True; [done|]. split; [done|lia].
  - destruct (decide (Value (deref h l) = None ∧ Timestamp (deref h l) < cutoff2))
      as [[Hv H2]|H2].
    + rewrite decide_True; [done|]. split; [done|lia].
    + rewrite decide_False; [done|]. intros [Hv Hm].
      destruct (Z.max_spec cutoff1 cutoff2) as [[_ Hmax]|[_ Hmax]];
        rewrite Hmax in Hm; [apply H2|apply H1]; done.
Qed.

(** X5. A purged deletion is forgotten: once [Purge] has removed a key, an
    [Absorb] takes whatever entry the donor holds for it, however old, even
    one older than the deletion that was purged. *)
Theorem Purge_then_Absorb (h : heap) (store store2 : Store) (cutoff : Z)
    (key : string) (l l2 : loc) :
  store !! key = Some l →
  Value (deref h l) = None → Timestamp (deref h l) < cutoff →
  store2 !! key = Some l2 →
  Absorb h (Purge h store cutoff) store2 !! key = Some l2 ∧
  (Timestamp (deref h l2) ≤ Timestamp (deref h l) →
   Absorb h store store2 !! key = Some l).
Proof.
  intros Hk Hv Ht H2. split.
  - rewrite Absorb_lookup_map, H2, Purge_lookup, Hk.
    by rewrite decide_True by done.
  - intros Hle. rewrite Absorb_lookup_map, H2, Hk. unfold absorbed.
    by rewrite decide_False by lia.
Qed.

Lemma Purge_then_Absorb_witness :
  Absorb stale_donor.1.1 (Purge stale_donor.1.1 stale_donor.1.2 6) stale_donor.2
    !! ("K" : string) = Some 2%positive ∧
  (Timestamp (deref stale_donor.1.1 2%positive)
   ≤ Timestamp (deref stale_donor.1.1 1%positive) →
   Absorb stale_donor.1.1 stale_donor.1.2 stale_donor.2 !! ("K" : string)
   = Some 1%positive).
Proof.
  apply (Purge_then_Absorb stale_donor.1.1 stale_donor.1.2 stale_donor.2 6 "K").
  - reflexivity.
  - reflexivity.
  - vm_compute. reflexivity.
  - reflexivity.
Defined.

(** The deleted key comes back with the stale value. *)
Example Purge_then_Absorb_example :
  let '(h, s1, s2) := stale_donor in
  Get h (Absorb h s1 s2) "K" = "" ∧
  Get h (Absorb h (Purge h s1 6) s2) "K" = "old".
Proof. vm_compute. split; reflexivity. Qed.

Lemma Absorb_entry_map (h : heap) (store store2 : Store) (key : string) :
  entry h (Absorb h store store2) key =
  match entry h store2 key with
  | Some e => Some (lww (entry h store key) e)
  | None => entry h store key
  end.
Proof. unfold Absorb. by apply Absorb_entry. Qed.

Lemma lww_Timestamp (mine : option ValueTimestamp) (e : ValueTimestamp) :
  Timestamp (lww mine e) = from_option (λ m, Timestamp m `max` Timestamp e) (Timestamp e) mine.
Proof. unfold lww. destruct mine as [m|]; [|done]. cbn. destruct (decide _); lia. Qed.

(** After [Absorb], either way round, a key has the larger of its two
    timestamps. *)
Lemma Absorb_timestamps_comm (h : heap) (store store2 : Store) :
  timestamps h (Absorb h store store2) = timestamps h (Absorb h store2 store).
Proof.
  apply map_eq. intros key. rewrite !timestamps_lookup, !Absorb_entry_map.
  destruct (entry h store key) as [e1|], (entry h store2 key) as [e2|];
    cbn -[lww]; try done.
  rewrite !lww_Timestamp. cbn. f_equal. lia.
Qed.

(** X6. Merging is symmetric in the timestamps but not in the values: after
    [A.Absorb(B)] and after [B.Absorb(A)] every key has the same timestamp, so
    the two results have the same [Hash]; their entries are the same too
    unless some key has equal timestamps and different entries in the two
    stores, in which case each receiver keeps its own. *)
Theorem Absorb_commutes (h : heap) (store store2 : Store) (o1 o2 : list string) :
  o1 ≡ₚ (map_to_list (Absorb h store store2)).*1 →
  o2 ≡ₚ (map_to_list (Absorb h store2 store)).*1 →
  Hash_in o1 h (Absorb h store store2) = Hash_in o2 h (Absorb h store2 store) ∧
  ((∀ key e1 e2, entry h store key = Some e1 → entry h store2 key = Some e2 →
      Timestamp e1 = Timestamp e2 → e1 = e2) →
   ∀ key, entry h (Absorb h store store2) key = entry h (Absorb h store2 store) key) ∧
  (∀ key e1 e2, entry h store key = Some e1 → entry h store2 key = Some e2 →
     Timestamp e1 = Timestamp e2 →
     entry h (Absorb h store store2) key = Some e1 ∧
     entry h (Absorb h store2 store) key = Some e2).
Proof.
  intros Ho1 Ho2. split; [|split].
  - apply Hash_in_timestamps; [done..|]. apply Absorb_timestamps_comm.
  - intros Hties key. rewrite !Absorb_entry_map.
    destruct (entry h store key) as [e1|] eqn:H1,
             (entry h store2 key) as [e2|] eqn:H2; cbn; try done.
    f_equal.
    destruct (decide (Timestamp e1 < Timestamp e2)),
             (decide (Timestamp e2 < Timestamp e1)); try done; try lia.
    apply (Hties key); [done..|lia].
  - intros key e1 e2 H1 H2 Heq. rewrite !Absorb_entry_map, H1, H2. cbn.
    unfold lww. by rewrite !decide_False by lia.
Qed.

Lemma Absorb_commutes_witness :
  Hash_in (map_to_list (Absorb heap12 store1 store2)).*1 heap12
    (Absorb heap12 store1 store2)
  = Hash_in (map_to_list (Absorb heap12 store2 store1)).*1 heap12
      (Absorb heap12 store2 store1) ∧
  ((∀ key e1 e2, entry heap12 store1 key = Some e1 → entry heap12 store2 key = Some e2 →
      Timestamp e1 = Timestamp e2 → e1 = e2) →
   ∀ key, entry heap12 (Absorb heap12 store1 store2) key
          = entry heap12 (Absorb heap12 store2 store1) key) ∧
  (∀ key e1 e2, entry heap12 store1 key = Some e1 → entry heap12 store2 key = Some e2 →
     Timestamp e1 = Timestamp e2 →
     entry heap12 (Absorb heap12 store1 store2) key = Some e1 ∧
     entry heap12 (Absorb heap12 store2 store1) key = Some e2).
Proof.
  apply (Absorb_commutes heap12 store1 store2); reflexivity.
Defined.

(** In [two_stores] key ["C"] ties: both results hash alike and differ. *)
Example Absorb_commutes_example :
  Hash heap12 (Absorb heap12 store1 store2) = Hash heap12 (Absorb heap12 store2 store1) ∧
  Get heap12 (Absorb heap12 store1 store2) "C" = "three" ∧
  Get heap12 (Absorb heap12 store2 store1) "C" = "four".
Proof. vm_compute. repeat split; reflexivity. Qed.

Lemma lww_lww_comm (mine : option ValueTimestamp) (w1 w2 : ValueTimestamp) :
  Timestamp w1 ≠ Timestamp w2 ∨ w1 = w2 →
  lww (Some (lww mine w1)) w2 = lww (Some (lww mine w2)) w1.
Proof.
  intros Hw. unfold lww. destruct mine as [m|].
  - destruct (decide (Timestamp m < Timestamp w1)) as [H1|H1],
             (decide (Timestamp m < Timestamp w2)) as [H2|H2];
      repeat (destruct (decide _)); try done; try lia;
      destruct Hw as [?|?]; done || lia.
  - repeat (destruct (decide _)); try done; try lia;
      destruct Hw as [?|?]; done || lia.
Qed.

(** X7. Last write wins whatever the order of arrival: two timestamped
    writes (sets or deletes) applied in either order leave every key with the
    same value-or-deletion and timestamp, as long as they are not two
    different writes to one key at one timestamp; in that case the first to
    arrive stays. *)
Theorem writes_commute (h : heap) (store : Store) (k1 k2 : string)
    (v1 v2 : option string) (t1 t2 : Z) :
  closed h store → exclusive store →
  let r1 := write_timestamped h store k1 v1 t1 in
  let r12 := write_timestamped r1.1 r1.2 k2 v2 t2 in
  let r2 := write_timestamped h store k2 v2 t2 in
  let r21 := write_timestamped r2.1 r2.2 k1 v1 t1 in
  (k1 ≠ k2 ∨ t1 ≠ t2 ∨ v1 = v2 →
   ∀ key, entry r12.1 r12.2 key = entry r21.1 r21.2 key) ∧
  (k1 = k2 → t1 = t2 → entry h store k1 = None →
   entry r12.1 r12.2 k1 = Some (mkVT v1 t1) ∧
   entry r21.1 r21.2 k1 = Some (mkVT v2 t2)).
Proof.
  intros Hc He r1 r12 r2 r21.
  assert (∀ key, entry r12.1 r12.2 key =
            if decide (k2 = key)
            then Some (lww (if decide (k1 = k2)
                            then Some (lww (entry h store k1) (mkVT v1 t1))
                            else entry h store k2) (mkVT v2 t2))
            else if decide (k1 = key)
                 then Some (lww (entry h store k1) (mkVT v1 t1))
                 else entry h store key) as H12.
  { intros key. unfold r12.
    rewrite write_timestamped_entry
      by (by apply write_timestamped_closed || by apply write_timestamped_exclusive).
    unfold r1. by rewrite !write_timestamped_entry by done. }
  assert (∀ key, entry r21.1 r21.2 key =
            if decide (k1 = key)
            then Some (lww (if decide (k2 = k1)
                            then Some (lww (entry h store k2) (mkVT v2 t2))
                            else entry h store k1) (mkVT v1 t1))
            else if decide (k2 = key)
                 then Some (lww (entry h store k2) (mkVT v2 t2))
                 else entry h store key) as H21.
  { intros key. unfold r21.
    rewrite write_timestamped_entry
      by (by apply write_timestamped_closed || by apply write_timestamped_exclusive).
    unfold r2. by rewrite !write_timestamped_entry by done. }
  split.
  - intros Hw key. rewrite H12, H21.
    destruct (decide (k1 = k2)) as [->|Hne].
    + rewrite (decide_True (P := k2 = k2)) by done.
      destruct (decide (k2 = key)) as [->|]; [|done]. f_equal.
      symmetry. apply lww_lww_comm.
      destruct Hw as [?|[?|?]]; [done|left; cbn; lia|].
      destruct (decide (t1 = t2)) as [->|]; [right; congruence|left; cbn; lia].
    + rewrite (decide_False (P := k2 = k1)) by done.
      destruct (decide (k2 = key)) as [->|], (decide (k1 = key)) as [->|];
        done.
  - intros -> -> Hk. rewrite H12, H21.
    rewrite !(decide_True (P := k2 = k2)) by done. rewrite Hk. cbn.
    by rewrite !decide_False by lia.
Qed.

Lemma writes_commute_witness :
  let r1 := write_timestamped state_A5.1 state_A5.2 "A" (Some "two") 7 in
  let r12 := write_timestamped r1.1 r1.2 "A" None 9 in
  let r2 := write_timestamped state_A5.1 state_A5.2 "A" None 9 in
  let r21 := write_timestamped r2.1 r2.2 "A" (Some "two") 7 in
  ((("A" : string) ≠ "A" ∨ 7 ≠ 9 ∨ Some ("two" : string) = None) →
   ∀ key, entry r12.1 r12.2 key = entry r21.1 r21.2 key) ∧
  (("A" : string) = "A" → 7 = 9 → entry state_A5.1 state_A5.2 "A" = None →
   entry r12.1 r12.2 "A" = Some (mkVT (Some "two") 7) ∧
   entry r21.1 r21.2 "A" = Some (mkVT None 9)).
Proof.
  apply (writes_commute state_A5.1 state_A5.2 "A" "A" (Some "two") None 7 9).
  - apply (bool_decide_unpack _). vm_compute. exact I.
  - apply (bool_decide_unpack _). vm_compute. exact I.
Defined.

(** X8. [Absorb] shares the donor's objects ("after Absorb, you should no
    longer use store2"): a key the receiver took from the donor is bound to
    the donor's own object, so a later write to that key of the donor
    overwrites the entry the receiver sees. *)
Theorem Absorb_shares_entries (h : heap) (store store2 : Store) (key : string)
    (l2 : loc) (value : option string) (t : Z) :
  store2 !! key = Some l2 →
  (store !! key = None ∨
   ∃ l, store !! key = Some l ∧ Timestamp (deref h l) < Timestamp (deref h l2)) →
  Timestamp (deref h l2) < t →
  let store' := Absorb h store store2 in
  let r := write_timestamped h store2 key value t in
  store' !! key = Some l2 ∧
  entry h store' key = Some (deref h l2) ∧
  entry r.1 store' key = Some (mkVT value t).
Proof.
  intros H2 H1 Ht store' r.
  assert (store' !! key = Some l2) as Hk.
  { unfold store'. rewrite Absorb_lookup_map, H2. f_equal. unfold absorbed.
    destruct H1 as [->|(l & -> & Hlt)]; [done|]. by rewrite decide_True. }
  split; [done|]. unfold entry. rewrite Hk. cbn. split; [done|].
  unfold r. rewrite write_timestamped_unfold, H2, decide_True by done.
  cbn. by rewrite deref_insert_eq.
Qed.

Lemma Absorb_shares_entries_witness :
  let store' := Absorb heap12 store1 store2 in
  let r := write_timestamped heap12 store2 "D" (Some "changed") 9 in
  store' !! ("D" : string) = Some 6%positive ∧
  entry heap12 store' "D" = Some (deref heap12 6%positive) ∧
  entry r.1 store' "D" = Some (mkVT (Some "changed") 9).
Proof.
  apply (Absorb_shares_entries heap12 store1 store2 "D" 6%positive (Some "changed") 9).
  - reflexivity.
  - left. reflexivity.
  - vm_compute. reflexivity.
Defined.

(** X9. [Set] and [Delete] take the clock's reading as timestamp, so they are
    dropped without notice when the key already holds an entry stamped at or
    after that reading (one absorbed from a machine whose clock is ahead, for
    instance): [Get] then still answers from the old entry.  Otherwise [Get]
    returns the value just set, or the empty string after a [Delete]. *)
Theorem Set_Delete_then_Get (now : Z) (h : heap) (store : Store) (key value : string) :
  let installed :=
    match entry h store key with
    | Some e => bool_decide (Timestamp e < now)
    | None => true
    end in
  let r := Store_Set now h store key value in
  let d := Store_Delete now h store key in
  Get r.1 r.2 key = (if installed then value else Get h store key) ∧
  Get d.1 d.2 key = (if installed then "" else Get h store key) ∧
  (installed = false → r = (h, store) ∧ d = (h, store)).
Proof.
  intros installed r d.
  assert (∀ v, let w := write_timestamped h store key v now in
            Get w.1 w.2 key = (if installed then default "" v else Get h store key) ∧
            (installed = false → w = (h, store))) as Hw.
  { intros v w. unfold installed, entry.
    destruct (store !! key) as [l|] eqn:Hk; cbn.
    - destruct (decide (Timestamp (deref h l) < now)) as [Hlt|Hge].
      + rewrite bool_decide_eq_true_2 by done. split; [|done].
        rewrite Get_entry. unfold w.
        rewrite (write_timestamped_installed h store key v now); [done|].
        right. exists (deref h l). unfold entry. by rewrite Hk.
      + rewrite bool_decide_eq_false_2 by done.
        assert (w = (h, store)) as ->; [|done].
        unfold w. by rewrite write_timestamped_unfold, Hk, decide_False.
    - split; [|done]. rewrite Get_entry. unfold w.
      rewrite (write_timestamped_installed h store key v now); [done|].
      left. unfold entry. by rewrite Hk. }
  destruct (Hw (Some value)) as [HS1 HS2], (Hw None) as [HD1 HD2].
  split; [exact HS1|]. split; [exact HD1|]. intros Hi. by split; [apply HS2|apply HD2].
Qed.

Lemma Set_Delete_then_Get_witness :
  let r := Store_Set 3 state_A5.1 state_A5.2 "A" "late" in
  let d := Store_Delete 3 state_A5.1 state_A5.2 "A" in
  Get r.1 r.2 "A" = "one" ∧ Get d.1 d.2 "A" = "one" ∧
  r = state_A5 ∧ d = state_A5.
Proof.
  destruct (Set_Delete_then_Get 3 state_A5.1 state_A5.2 "A" "late")
    as (H1 & H2 & H3).
  split; [exact H1|]. split; [exact H2|]. apply H3. reflexivity.
Defined.

(** ** The invariants of the states the package builds *)

(** Where the pointer under a key comes from after a step: it was under that
    key in some store before, or the step allocated it for that key. *)
Lemma step_lookup_origin w o s key l :
  store_of (step w o) s !! key = Some l →
  (∃ s', store_of w s' !! key = Some l) ∨ l = alloc (mem w).
Proof.
  assert (∀ v k t, (write_timestamped (mem w) (store_of w s) k v t).2 !! key = Some l →
            store_of w s !! key = Some l ∨ l = alloc (mem w)) as Hw.
  { intros v k t. rewrite write_timestamped_unfold.
    destruct (store_of w s !! k) as [l0|] eqn:Hk.
    - destruct (decide _); cbn; by left.
    - cbn. rewrite lookup_insert. destruct (decide (k = key)).
      + intros [= <-]. by right.
      + by left. }
  destruct o as [s0 k value t|s0 k t|s0 cutoff|s0 s2]; cbn [step];
    rewrite store_of_insert; fold (store_of w s);
    (destruct (decide (s0 = s)) as [->|Hne]; [|intros ?; left; by exists s]).
  - intros H. destruct (Hw (Some value) k t H); [left; by exists s|by right].
  - intros H. destruct (Hw None k t H); [left; by exists s|by right].
  - rewrite Purge_lookup. destruct (store_of w s !! key) as [l1|] eqn:E; [|done].
    destruct (decide _); [done|]. intros [= <-]. left. by exists s.
  - rewrite Absorb_lookup_map.
    destruct (store_of w s2 !! key) as [l2|] eqn:H2.
    + intros [= <-]. unfold absorbed.
      destruct (store_of w s !! key) as [l1|] eqn:H1.
      * destruct (decide _); left; [by exists s2|by exists s].
      * left. by exists s2.
    + intros H. left. by exists s.
Qed.

Lemma step_keyed w o : world_closed w → world_keyed w → world_keyed (step w o).
Proof.
  intros Hc Hk s1 s2 k1 k2 l H1 H2.
  assert (∀ s k, store_of w s !! k ≠ Some (alloc (mem w))) as Hfresh.
  { intros s k. apply closed_not_alloc, store_of_closed, Hc. }
  assert (∀ s k, store_of (step w o) s !! k = Some (alloc (mem w)) →
            match o with
            | OpSetTimestamped _ k' _ _ | OpDeleteTimestamped _ k' _ => k = k'
            | _ => False
            end) as Hnew.
  { intros s k. destruct o as [s0 k' value t|s0 k' t|s0 cutoff|s0 s0'].
    - cbn [step]. rewrite store_of_insert. fold (store_of w s).
      destruct (decide (s0 = s)) as [->|]; [|intros H; by destruct (Hfresh s k)].
      change (SetTimestamped (mem w) (store_of w s) k' value t)
        with (write_timestamped (mem w) (store_of w s) k' (Some value) t).
      rewrite write_timestamped_unfold.
      destruct (store_of w s !! k') as [l0|] eqn:Hk'.
      + destruct (decide _); cbn; intros H; by destruct (Hfresh s k).
      + cbn. rewrite lookup_insert. destruct (decide (k' = k)); [done|].
        intros H. by destruct (Hfresh s k).
    - cbn [step]. rewrite store_of_insert. fold (store_of w s).
      destruct (decide (s0 = s)) as [->|]; [|intros H; by destruct (Hfresh s k)].
      change (DeleteTimestamped (mem w) (store_of w s) k' t)
        with (write_timestamped (mem w) (store_of w s) k' None t).
      rewrite write_timestamped_unfold.
      destruct (store_of w s !! k') as [l0|] eqn:Hk'.
      + destruct (decide _); cbn; intros H; by destruct (Hfresh s k).
      + cbn. rewrite lookup_insert. destruct (decide (k' = k)); [done|].
        intros H. by destruct (Hfresh s k).
    - intros H. destruct (step_lookup_origin _ _ _ _ _ H) as [[s' H']|Heq].
      + by destruct (Hfresh s' k).
      + cbn [step mem] in H. rewrite store_of_insert in H.
        fold (store_of w s) in H. destruct (decide (s0 = s)) as [->|].
        * rewrite Purge_lookup in H.
          destruct (store_of w s !! k) as [l1|] eqn:E; [|done].
          destruct (decide _); [done|]. injection H as ->. by destruct (Hfresh s k).
        * by destruct (Hfresh s k).
    - intros H. cbn [step] in H. rewrite store_of_insert in H.
      fold (store_of w s) in H. destruct (decide (s0 = s)) as [->|];
        [|by destruct (Hfresh s k)].
      rewrite Absorb_lookup_map in H.
      destruct (store_of w s0' !! k) as [l2|] eqn:H2'.
      + injection H as H. unfold absorbed in H.
        destruct (store_of w s !! k) as [l1|] eqn:E.
        * destruct (decide _); subst; [by destruct (Hfresh s0' k)|by destruct (Hfresh s k)].
        * subst. by destruct (Hfresh s0' k).
      + by destruct (Hfresh s k). }
  destruct (step_lookup_origin _ _ _ _ _ H1) as [[s1' H1']| ->],
           (step_lookup_origin _ _ _ _ _ H2) as [[s2' H2']|E2].
  - by apply (Hk s1' s2' k1 k2 l).
  - subst l. by destruct (Hfresh s1' k1).
  - by destruct (Hfresh s2' k2).
  - apply Hnew in H1, H2. destruct o; try done; congruence.
Qed.

Lemma world_keyed_exclusive w s : world_keyed w → exclusive (store_of w s).
Proof. intros Hk k1 l1 H1 k2 l2 H2 <-. by apply (Hk s s k1 k2 l1). Qed.

(** X10. The states the package builds are well formed.  Starting from
    stores that hold allocated objects, none of them under two different keys
    (empty stores, for instance), any sequence of [SetTimestamped],
    [DeleteTimestamped], [Purge] and [Absorb] over any stores leads to a state
    where every store again holds allocated objects only and no object under
    two keys of a store, although stores may share objects after [Absorb]. *)
Theorem reachable_well_formed (w0 : world) (ops : list op) (n : nat) (w : world) :
  world_closed w0 → world_keyed w0 →
  trace w0 ops !! n = Some w →
  ∀ s, closed (mem w) (store_of w s) ∧ exclusive (store_of w s).
Proof.
  revert w0 n. induction ops as [|o ops IH]; intros w0 n Hc Hk Hn s.
  - destruct n; [|done]. injection Hn as <-.
    split; [by apply store_of_closed|by apply world_keyed_exclusive].
  - destruct n as [|n].
    + injection Hn as <-.
      split; [by apply store_of_closed|by apply world_keyed_exclusive].
    + apply (IH (step w0 o) n); [by apply step_closed|by apply step_keyed|done].
Qed.

Lemma reachable_well_formed_witness :
  closed (mem overview_merged) (store_of overview_merged 1) ∧
  exclusive (store_of overview_merged 1).
Proof.
  apply (reachable_well_formed world0 overview 11 overview_merged).
  - apply (bool_decide_unpack _). vm_compute. exact I.
  - intros s1 s2 k1 k2 l H. unfold store_of in H. cbn in H.
    by rewrite lookup_empty in H.
  - vm_compute. reflexivity.
Defined.

(** ** What [Hash] and [SimpleString] cannot tell apart *)

(** X11. [Hash] separates keys and timestamps by newlines only, so a key
    that contains a newline can imitate two entries: a store with keys
    [k1 < k2] at timestamps [t1], [t2] and a store with the single key
    "k1, newline, t1 in decimal, newline, k2" at timestamp [t2] have the same
    [Hash], though their keys differ. *)
Theorem Hash_newline_ambiguity (h h' : heap) (store store' : Store)
    (k1 k2 : string) (t1 t2 : Z) (order order' : list string) :
  k1 ≠ k2 → String.le k1 k2 →
  timestamps h store = <[k1 := t1]> {[k2 := t2]} →
  timestamps h' store' =
    {[k1 +:+ Hash_spec.newline +:+ pretty t1 +:+ Hash_spec.newline +:+ k2 := t2]} →
  order ≡ₚ (map_to_list store).*1 → order' ≡ₚ (map_to_list store').*1 →
  Hash_in order h store = Hash_in order' h' store'.
Proof.
  intros Hne Hle Ht Ht' Ho Ho'.
  rewrite (Hash_in_spec h store order [(k1, t1); (k2, t2)]); [|done| |].
  - rewrite (Hash_in_spec h' store' order'
               [(k1 +:+ Hash_spec.newline +:+ pretty t1 +:+ Hash_spec.newline +:+ k2, t2)]);
      [|done| |].
    + unfold Hash_spec.Hash. do 3 f_equal. cbn. unfold Hash_spec.line. cbn.
      by rewrite !string_app_nil_r, !string_app_assoc.
    + by rewrite Ht', map_to_list_singleton.
    + repeat constructor.
  - rewrite Ht, map_to_list_insert by (by rewrite lookup_singleton_ne).
    by rewrite map_to_list_singleton.
  - repeat constructor. done.
Qed.

Lemma Hash_newline_ambiguity_witness :
  Hash_in (map_to_list state_AB.2).*1 state_AB.1 state_AB.2
  = Hash_in (map_to_list state_newline.2).*1 state_newline.1 state_newline.2.
Proof.
  apply (Hash_newline_ambiguity state_AB.1 state_newline.1 state_AB.2
           state_newline.2 "A" "B" 1 2).
  - discriminate.
  - vm_compute. exact I.
  - vm_compute. reflexivity.
  - vm_compute. reflexivity.
  - reflexivity.
  - reflexivity.
Defined.


Example Hash_newline_ambiguity_example :
  Hash state_AB.1 state_AB.2 = "9782f0b735fa4bd9" ∧
  Hash state_newline.1 state_newline.2 = "9782f0b735fa4bd9".
Proof. split; vm_compute; reflexivity. Qed.

(** ** [SimpleString] *)

Lemma values_lookup h store key :
  values h store !! key = Value <$> entry h store key.
Proof. unfold values, entry. rewrite lookup_fmap. by destruct (store !! key). Qed.

Lemma keys_values h store :
  (map_to_list (values h store)).*1 ≡ₚ (map_to_list store).*1.
Proof.
  unfold values. rewrite map_to_list_fmap, <-list_fmap_compose.
  assert (∀ l : list (string * loc),
            fst ∘ prod_map id (λ l, Value (deref h l)) <$> l = l.*1) as ->; [|done].
  intros l. apply list_fmap_ext. by intros ? [??].
Qed.

(** From the second key on, every item comes with its comma. *)
Lemma SimpleString_loop_S h store (i : nat) (ks : list string) (msg : string) :
  SimpleString_loop h store (S i) ks msg =
  msg +:+ foldr (λ k acc, "," +:+ simple_item (k, value_at h store k) +:+ acc) "" ks.
Proof.
  revert i msg. induction ks as [|k ks IH]; intros i msg.
  - cbn. by rewrite string_app_nil_r.
  - cbn [SimpleString_loop foldr]. rewrite IH, string_app_assoc. f_equal.
    unfold SimpleString_item, simple_item. cbn [fst snd].
    destruct (value_at h store k); by rewrite ?string_app_assoc.
Qed.

Lemma comma_join_cons (x : string) (rest : list string) :
  comma_join (x :: rest) = x +:+ foldr (λ y acc, "," +:+ y +:+ acc) "" rest.
Proof.
  revert x. induction rest as [|y rest IH]; intros x.
  - cbn. by rewrite string_app_nil_r.
  - change (comma_join (x :: y :: rest)) with (x +:+ "," +:+ comma_join (y :: rest)).
    by rewrite IH.
Qed.

Lemma SimpleString_loop_join h store (ks : list string) :
  SimpleString_loop h store 0 ks "" =
  comma_join ((λ k, simple_item (k, value_at h store k)) <$> ks).
Proof.
  destruct ks as [|k ks]; [done|].
  cbn [SimpleString_loop fmap list_fmap]. rewrite SimpleString_loop_S, comma_join_cons.
  assert (("" +:+ SimpleString_item h store 0 k) = simple_item (k, value_at h store k)) as ->.
  { unfold SimpleString_item, simple_item. cbn [fst snd].
    by destruct (value_at h store k). }
  f_equal. induction ks as [|k' ks IH]; [done|]. cbn. by rewrite IH.
Qed.

Lemma SimpleString_in_spec (h : heap) (store : Store) (order : list string)
    (kvs : list (string * option string)) :
  order ≡ₚ (map_to_list store).*1 →
  kvs ≡ₚ map_to_list (values h store) →
  Sorted (λ a b, String.le a.1 b.1) kvs →
  SimpleString_in order h store = comma_join (simple_item <$> kvs).
Proof.
  intros Ho Hk Hs. unfold SimpleString_in.
  rewrite (sort_Strings_unique order kvs.*1).
  - rewrite SimpleString_loop_join, <-list_fmap_compose. f_equal.
    apply Forall_fmap_ext, Forall_forall. intros [k v] Hin. cbn. f_equal. f_equal.
    assert (values h store !! k = Some v) as Hv.
    { apply elem_of_map_to_list. by rewrite <-Hk. }
    rewrite values_lookup in Hv. unfold value_at.
    destruct (entry h store k); by simplify_eq/=.
  - by rewrite Ho, Hk, keys_values.
  - by apply (Sorted_fmap fst (λ a b, String.le a.1 b.1) String.le).
Qed.

(** X12. [SimpleString], in whatever order the keys are collected from the
    map, is the comma-separated list, in ascending order of the keys, of
    [key=value] for a live entry and [key/deleted] for a deletion marker; it
    depends on nothing else, so stores with the same keys and values print
    alike whatever their timestamps. *)
Theorem SimpleString_algorithm (h : heap) (store : Store) (order : list string)
    (kvs : list (string * option string)) :
  order ≡ₚ (map_to_list store).*1 →
  kvs ≡ₚ map_to_list (values h store) →
  Sorted (λ a b, String.le a.1 b.1) kvs →
  SimpleString_in order h store = comma_join (simple_item <$> kvs) ∧
  ∀ (h' : heap) (store' : Store) (order' : list string),
    order' ≡ₚ (map_to_list store').*1 →
    (∀ key, Value <$> entry h' store' key = Value <$> entry h store key) →
    SimpleString_in order' h' store' = SimpleString_in order h store.
Proof.
  intros Ho Hk Hs. split; [by apply SimpleString_in_spec|].
  intros h' store' order' Ho' Hv.
  rewrite (SimpleString_in_spec h store order kvs) by done.
  apply SimpleString_in_spec; [done| |done].
  assert (values h' store' = values h store) as ->; [|done].
  apply map_eq. intros key. by rewrite !values_lookup.
Qed.

Lemma SimpleString_algorithm_witness :
  SimpleString_in (map_to_list store2).*1 heap12 store2
  = comma_join (simple_item <$> [("B", None); ("C", Some "four"); ("D", Some "five")]) ∧
  ∀ (h' : heap) (store' : Store) (order' : list string),
    order' ≡ₚ (map_to_list store').*1 →
    (∀ key, Value <$> entry h' store' key = Value <$> entry heap12 store2 key) →
    SimpleString_in order' h' store' = SimpleString_in (map_to_list store2).*1 heap12 store2.
Proof.
  apply (SimpleString_algorithm heap12 store2 (map_to_list store2).*1
           [("B", None); ("C", Some "four"); ("D", Some "five")]).
  - reflexivity.
  - apply (bool_decide_unpack _). vm_compute. exact I.
  - repeat constructor.
Defined.

(** * The JSON codec *)

(** ** The documented examples and the tests of the package *)

(** [ExampleValueTimestamp_MarshalJSON]: the texts ["one",1] and [null,2]. *)
Example ExampleValueTimestamp_MarshalJSON :
  MarshalJSON (mkVT (Some "one") 1)
  = ("[" +:+ String dquote "one" +:+ String dquote ",1]", None) ∧
  MarshalJSON (mkVT None 2) = ("[null,2]", None).
Proof. split; vm_compute; reflexivity. Qed.

(** [ExampleValueTimestamp_UnmarshalJSON] *)
Example ExampleValueTimestamp_UnmarshalJSON :
  UnmarshalJSON amd64 (mkVT None 0) ("[" +:+ String dquote "one" +:+ String dquote ",1]")
  = (mkVT (Some "one") 1, None) ∧
  UnmarshalJSON amd64 (mkVT None 0) "[null,2]" = (mkVT None 2, None).
Proof. split; vm_compute; reflexivity. Qed.

(** [TestValueTimestampUnmarshalJunk] to [...Junk5]: the errors and their
    messages. *)
Example TestValueTimestampUnmarshalJunk :
  (UnmarshalJSON amd64 (mkVT None 0) "ksjdflksjdf;lsdkjf;").2
  = Some (JSONError SyntaxError) ∧
  (UnmarshalJSON amd64 (mkVT None 0) "[1,2,3]").2
  = Some (Errorf "expected [value,timestamp] from: [1,2,3]") ∧
  (UnmarshalJSON amd64 (mkVT None 0) "[1,2]").2
  = Some (Errorf "invalid value from: [1,2]") ∧
  (UnmarshalJSON amd64 (mkVT None 0)
     ("[" +:+ String dquote "one" +:+ String dquote "," +:+ String dquote "two"
      +:+ String dquote "]")).2
  = Some (Errorf ("invalid timestamp from: [" +:+ String dquote "one" +:+ String dquote ","
                  +:+ String dquote "two" +:+ String dquote "]")) ∧
  (UnmarshalJSON amd64 (mkVT None 0)
     ("[" +:+ String dquote "one" +:+ String dquote ",2.1]")).2
  = Some (Errorf ("invalid timestamp from: [" +:+ String dquote "one" +:+ String dquote ",2.1]")).
Proof. repeat split; vm_compute; reflexivity. Qed.

(** ** Errors of [UnmarshalJSON] *)

(** X13. What a failed [UnmarshalJSON] leaves behind.  Whatever the text,
    when [UnmarshalJSON] returns an error the target's timestamp is what it
    was; its value is what it was too, unless the error is the "invalid
    timestamp" one: the value is assigned before the timestamp is examined,
    so that error leaves the target with the value of the rejected text. *)
Theorem UnmarshalJSON_error (unspecified : Q → Z) (valueTimestamp : ValueTimestamp)
    (b : string) (valueTimestamp' : ValueTimestamp) (err : error) :
  UnmarshalJSON unspecified valueTimestamp b = (valueTimestamp', Some err) →
  Timestamp valueTimestamp' = Timestamp valueTimestamp ∧
  (err ≠ Errorf ("invalid timestamp from: " +:+ b) →
   valueTimestamp' = valueTimestamp) ∧
  (err = Errorf ("invalid timestamp from: " +:+ b) →
   ∃ e0 e1, json_Unmarshal b = inr [e0; e1] ∧
     Value valueTimestamp' = match e0 with Istring value => Some value | _ => None end).
Proof.
  unfold UnmarshalJSON.
  destruct (json_Unmarshal b) as [e|l] eqn:Hb.
  { intros [= <- <-]. repeat split; done. }
  unfold UnmarshalJSON_decoded.
  destruct l as [|e0 [|e1 [|e2 l]]];
    try (intros [= <- <-]; repeat split; done).
  assert (∀ v, (mkVT v (Timestamp valueTimestamp), Some err) =
               (valueTimestamp', Some err) →
            Timestamp valueTimestamp' = Timestamp valueTimestamp ∧
            Value valueTimestamp' = v) as Hassigned.
  { by intros v [= <-]. }
  destruct e0 as [|bo|t0|s0|l0|m0]; cbn;
    try (intros [= <- <-]; repeat split; done);
    (destruct e1 as [|bo1|t1|s1|l1|m1]; [| |destruct (Qeq_bool _ _)|..];
     try done;
     intros [= <- <-]; (split; [done|]); (split; [done|]); intros _;
     eexists _, _; (split; [reflexivity|done])).
Qed.

Lemma UnmarshalJSON_error_witness :
  Timestamp (mkVT (Some "one") 0) = Timestamp (mkVT None 0) ∧
  (Errorf ("invalid timestamp from: [" +:+ String dquote "one" +:+ String dquote ",2.1]")
   ≠ Errorf ("invalid timestamp from: " +:+
             ("[" +:+ String dquote "one" +:+ String dquote ",2.1]")) →
   mkVT (Some "one") 0 = mkVT None 0) ∧
  (Errorf ("invalid timestamp from: [" +:+ String dquote "one" +:+ String dquote ",2.1]")
   = Errorf ("invalid timestamp from: " +:+
             ("[" +:+ String dquote "one" +:+ String dquote ",2.1]")) →
   ∃ e0 e1, json_Unmarshal ("[" +:+ String dquote "one" +:+ String dquote ",2.1]")
            = inr [e0; e1] ∧
     Value (mkVT (Some "one") 0) = match e0 with Istring value => Some value | _ => None end).
Proof.
  apply (UnmarshalJSON_error amd64 (mkVT None 0)
           ("[" +:+ String dquote "one" +:+ String dquote ",2.1]")).
  vm_compute. reflexivity.
Defined.

(** ** Round trip *)

Lemma unquote_ascii_piece (c : ascii) (f : nat) (tail : string) :
  is_ascii_byte c →
  unquote (S f) (ascii_piece c +:+ tail) = parsed_prepend (String c "") (unquote f tail).
Proof.
  destruct c as [b0 b1 b2 b3 b4 b5 b6 b7]. unfold is_ascii_byte.
  destruct b7; [by destruct b0, b1, b2, b3, b4, b5, b6|]. intros _.
  destruct b0, b1, b2, b3, b4, b5, b6; reflexivity.
Qed.

Lemma ascii_piece_length (c : ascii) : (1 ≤ String.length (ascii_piece c))%nat.
Proof.
  unfold ascii_piece, escape_byte, escape_u00, escaped.
  destruct (htmlSafe _); [cbn; lia|].
  repeat (match goal with |- context [if ?b then _ else _] => destruct b end);
    cbn [String.length]; lia.
Qed.

Lemma string_length_app (a b : string) :
  String.length (a +:+ b) = (String.length a + String.length b)%nat.
Proof.
  induction a as [|x a IH]; [done|].
  change (S (String.length (a +:+ b)) = S (String.length a + String.length b)).
  by rewrite IH.
Qed.

Lemma appendString_loop_ascii (c : ascii) (v : string) (n : nat) :
  is_ascii_byte c →
  appendString_loop (S n) (String c v) = ascii_piece c +:+ appendString_loop n v.
Proof.
  unfold is_ascii_byte. intros Hc. cbn [appendString_loop].
  by rewrite (proj2 (Z.ltb_lt _ _) Hc).
Qed.

(** Reading back what [appendString] wrote for a string of ASCII bytes. *)
Lemma unquote_appendString (v : string) :
  all_ascii v →
  ∀ (f : nat) (rest : string),
    (String.length (appendString_loop (String.length v) v) < f)%nat →
    unquote f (appendString_loop (String.length v) v +:+ String dquote rest)
    = Parsed v rest.
Proof.
  induction v as [|c v IH]; intros Hv f rest Hf.
  - destruct f as [|f]; [cbn in Hf; lia|]. reflexivity.
  - destruct Hv as [Hc Hv]. cbn [String.length] in *.
    rewrite appendString_loop_ascii in * by done.
    rewrite string_length_app in Hf. pose proof (ascii_piece_length c).
    destruct f as [|f]; [lia|].
    rewrite string_app_assoc, unquote_ascii_piece by done.
    rewrite IH by (done || lia). reflexivity.
Qed.

(** The decimal digits [pretty] writes are read back by [digits]. *)
Lemma pretty_N_char_digit (d : N) (acc : Z) (n : nat) (s : string) :
  (d < 10)%N →
  digits acc n (String (pretty_N_char d) s) = digits (10 * acc + Z.of_N d) (S n) s.
Proof.
  intros Hd.
  assert (d = 0 ∨ d = 1 ∨ d = 2 ∨ d = 3 ∨ d = 4 ∨ d = 5 ∨ d = 6 ∨ d = 7 ∨ d = 8
          ∨ d = 9)%N as Hcases by lia.
  repeat (destruct Hcases as [->|Hcases]; [reflexivity|]). by subst.
Qed.

Lemma digits_pretty_N_go (x : N) :
  ∀ (acc : Z) (n : nat) (s : string),
    ∃ k : nat,
      digits acc n (pretty_N_go x s)
      = digits (acc * 10 ^ Z.of_nat k + Z.of_N x) (n + k) s.
Proof.
  induction (N.lt_wf_0 x) as [x _ IH]. intros acc n s.
  destruct (decide (x = 0)%N) as [->|Hx].
  - exists 0%nat. rewrite pretty_N_go_0. f_equal; lia.
  - rewrite pretty_N_go_step by lia.
    destruct (IH (x `div` 10)%N) with (acc := acc) (n := n)
      (s := String (pretty_N_char (x `mod` 10)) s) as [k Hk].
    { apply N.div_lt; lia. }
    exists (S k). rewrite Hk, pretty_N_char_digit by (apply N.mod_lt; lia).
    f_equal; [|lia].
    rewrite Nat2Z.inj_succ, Z.pow_succ_r by lia.
    pose proof (N.div_mod x 10). 
    assert (Z.of_N x = 10 * Z.of_N (x `div` 10) + Z.of_N (x `mod` 10)) by lia.
    lia.
Qed.

(** The first character [pretty] writes for a positive number is a digit
    other than 0. *)
Lemma pretty_N_go_head (x : N) :
  (0 < x)%N →
  ∀ s, ∃ c s', pretty_N_go x s = String c s' ∧ between 49 57 (byte_val c) = true.
Proof.
  induction (N.lt_wf_0 x) as [x _ IH]. intros Hx s.
  rewrite pretty_N_go_step by done.
  destruct (decide (x `div` 10 = 0)%N) as [Hd|Hd].
  - rewrite Hd, pretty_N_go_0.
    assert (x < 10)%N as Hlt.
    { destruct (N.lt_ge_cases x 10) as [?|Hge]; [done|].
      apply (N.Div0.div_le_mono _ _ 10) in Hge. rewrite N.div_same in Hge by lia. lia. }
    rewrite N.mod_small by done.
    assert (x = 1 ∨ x = 2 ∨ x = 3 ∨ x = 4 ∨ x = 5 ∨ x = 6 ∨ x = 7 ∨ x = 8 ∨ x = 9)%N
      as Hcases by lia.
    repeat (destruct Hcases as [->|Hcases]; [by eexists _, _|]).
    subst. by eexists _, _.
  - apply IH; [apply N.div_lt; lia | by apply N.neq_0_lt_0].
Qed.

Lemma pretty_N_go_app (x : N) (s t : string) :
  pretty_N_go x s +:+ t = pretty_N_go x (s +:+ t).
Proof.
  revert s. induction (N.lt_wf_0 x) as [x _ IH]. intros s.
  destruct (decide (x = 0)%N) as [->|Hx]; [by rewrite !pretty_N_go_0|].
  rewrite (pretty_N_go_step x s), (pretty_N_go_step x (s +:+ t)) by lia.
  rewrite IH by (apply N.div_lt; lia). reflexivity.
Qed.

(** A value that starts with a minus sign or a digit is a number. *)
Lemma value_number (f : nat) (d : Z) (c : ascii) (s : string) :
  byte_val c = 45 ∨ 48 ≤ byte_val c ≤ 57 →
  value (S f) d (String c s) = number (String c s).
Proof.
  intros Hc. cbn [value skip_space].
  assert (is_space (byte_val c) = false) as ->.
  { unfold is_space. rewrite !orb_false_iff. repeat split; apply Z.eqb_neq; lia. }
  rewrite (proj2 (Z.eqb_neq (byte_val c) 91)) by lia.
  rewrite (proj2 (Z.eqb_neq (byte_val c) 123)) by lia.
  rewrite (proj2 (Z.eqb_neq (byte_val c) 34)) by lia.
  assert ((byte_val c =? 45) || is_digit (byte_val c) = true) as ->; [|done].
  unfold is_digit, between. destruct Hc as [->|Hc]; [done|].
  apply orb_true_iff. right. apply andb_true_iff. split; apply Z.leb_le; lia.
Qed.

(** The text of a positive number, followed by a closing bracket. *)
Lemma number_pretty_pos (neg : bool) (p : positive) (rest : string) :
  ∃ c s, pretty_N_go (Npos p) (String "]" rest) = String c s ∧
    49 ≤ byte_val c ≤ 57 ∧
    number_int (String c s) = Some (Zpos p, String "]" rest).
Proof.
  destruct (pretty_N_go_head (Npos p)) with (s := String "]" rest)
    as (c & s & Hs & Hc); [done|].
  exists c, s. split; [done|].
  unfold between in Hc. apply andb_true_iff in Hc as [H1 H2].
  apply Z.leb_le in H1, H2. split; [lia|].
  unfold number_int.
  rewrite (proj2 (Z.eqb_neq (byte_val c) 48)) by lia.
  assert (between 49 57 (byte_val c) = true) as ->.
  { unfold between. apply andb_true_iff. split; apply Z.leb_le; lia. }
  rewrite <-Hs.
  destruct (digits_pretty_N_go (Npos p) 0 0%nat (String "]" rest)) as [k ->].
  cbn [digits]. f_equal.
Qed.

(** Reading back a timestamp written in decimal. *)
Lemma value_pretty (f : nat) (d : Z) (t : Z) (rest : string) :
  value (S f) d (pretty t +:+ String "]" rest)
  = Parsed (Jnumber t 0) (String "]" rest).
Proof.
  destruct t as [|p|p].
  - reflexivity.
  - change (pretty (Z.pos p)) with (pretty_N_go (Npos p) "").
    rewrite pretty_N_go_app.
    change ("" +:+ String "]" rest) with (String "]" rest).
    destruct (number_pretty_pos false p rest) as (c & s & -> & Hc & Hint).
    rewrite value_number by lia. unfold number.
    rewrite (proj2 (Z.eqb_neq (byte_val c) 45)) by lia. by rewrite Hint.
  - change (pretty (Z.neg p)) with ("-" +:+ pretty_N_go (Npos p) "").
    rewrite string_app_assoc, pretty_N_go_app.
    change ("" +:+ String "]" rest) with (String "]" rest).
    change ("-" +:+ ?x) with (String "-" x).
    rewrite value_number by (by left). unfold number.
    change (byte_val "-" =? 45) with true. cbv iota beta.
    destruct (number_pretty_pos true p rest) as (c & s & -> & Hc & Hint).
    by rewrite Hint.
Qed.

(** The equations of the reader on the text [MarshalJSON] writes. *)
Lemma value_array (f : nat) (d : Z) (c : ascii) (rest : string) :
  d < maxNestingDepth → is_space (byte_val c) = false → byte_val c ≠ 93 →
  value (S f) d (String "[" (String c rest))
  = parsed_bind (value f (d + 1) (String c rest)) (λ v r,
    parsed_bind (elements f (d + 1) r) (λ vs r', Parsed (Jarray (v :: vs)) r')).
Proof.
  intros Hd Hs Hc. cbn [value skip_space].
  change (is_space (byte_val "[")) with false. cbv iota.
  change (byte_val "[" =? 91) with true. cbv iota.
  rewrite (proj2 (Z.leb_gt maxNestingDepth d)) by done.
  cbn [skip_space]. rewrite Hs. by rewrite (proj2 (Z.eqb_neq (byte_val c) 93)).
Qed.

Lemma elements_comma (f : nat) (d : Z) (rest : string) :
  elements (S f) d (String "," rest)
  = parsed_bind (value f d rest) (λ v r,
    parsed_bind (elements f d r) (λ vs r', Parsed (v :: vs) r')).
Proof. reflexivity. Qed.

Lemma elements_close (f : nat) (d : Z) (rest : string) :
  elements (S f) d (String "]" rest) = Parsed [] rest.
Proof. reflexivity. Qed.

Lemma value_null (f : nat) (d : Z) (rest : string) :
  value (S f) d (String "n" (String "u" (String "l" (String "l" rest))))
  = Parsed Jnull rest.
Proof. reflexivity. Qed.

Lemma value_string (f : nat) (d : Z) (rest : string) :
  value (S f) d (String dquote rest)
  = parsed_bind (unquote (S (String.length rest)) rest) (λ x r, Parsed (Jstring x) r).
Proof. reflexivity. Qed.

(** The text [MarshalJSON] writes is read back as the array of its two
    elements. *)
Lemma json_parse_MarshalJSON (v : option string) (t : Z) :
  from_option all_ascii True v →
  json_parse (MarshalJSON (mkVT v t)).1
  = Parsed (Jarray [jvalue_of v; Jnumber t 0]) "".
Proof.
  intros Hv. unfold json_parse, MarshalJSON. cbn [fst Value Timestamp].
  set (body := match v with None => "null" | Some s => appendString s end).
  change ("[" +:+ body +:+ "," +:+ pretty t +:+ "]")
    with (String "[" (body +:+ String "," (pretty t +:+ String "]" ""))).
  set (text := String "[" _).
  assert (∃ f, (2 * String.length text + 2)%nat = S (S (S (S f)))) as [f ->].
  { exists (2 * String.length (body +:+ String "," (pretty t +:+ String "]" "")))%nat.
    unfold text. cbn [String.length]. lia. }
  unfold text.
  assert (value (S (S (S (S f)))) 0 (String "[" (body +:+ String "," (pretty t +:+ String "]" "")))
          = Parsed (Jarray [jvalue_of v; Jnumber t 0]) "") as ->; [|done].
  destruct v as [s|]; unfold body.
  - unfold appendString.
    change (String dquote ?x +:+ ?y) with (String dquote (x +:+ y)).
    rewrite value_array by done. rewrite value_string.
    rewrite string_app_assoc.
    change (String dquote "" +:+ ?y) with (String dquote y).
    rewrite unquote_appendString; [|done|].
    + cbn [parsed_bind]. rewrite elements_comma, value_pretty. cbn [parsed_bind].
      by rewrite elements_close.
    + rewrite string_length_app. cbn [String.length]. lia.
  - change ("null" +:+ ?y)
      with (String "n" (String "u" (String "l" (String "l" y)))).
    rewrite value_array by done. rewrite value_null. cbn [parsed_bind].
    rewrite elements_comma, value_pretty. cbn [parsed_bind].
    by rewrite elements_close.
Qed.

(** ** Integers as [float64] *)

Lemma ulp_exponent_int (a : Z) :
  0 < a → float64_ulp_exponent a 1 = Z.log2 a - 52.
Proof.
  intros Ha. unfold float64_ulp_exponent, scale2.
  change (Z.log2 1) with 0. rewrite Z.sub_0_r.
  pose proof (Z.log2_nonneg a) as Hl. pose proof (Z.log2_spec a Ha) as [Hlo _].
  rewrite (proj2 (Z.leb_le 0 (Z.log2 a))) by done.
  rewrite (proj2 (Z.ltb_ge a (1 * 2 ^ Z.log2 a))) by lia. lia.
Qed.

(** Below [2^52] an integer is a [float64] as it is. *)
Lemma round_pos_int_small (a : Z) :
  0 < a → Z.log2 a < 52 →
  float64_round_pos a 1 = (a * 2 ^ (52 - Z.log2 a), Z.log2 a - 52).
Proof.
  intros Ha Hl. unfold float64_round_pos. rewrite ulp_exponent_int by done.
  unfold scale2. rewrite (proj2 (Z.leb_gt 0 (Z.log2 a - 52))) by lia.
  replace (- (Z.log2 a - 52)) with (52 - Z.log2 a) by lia.
  rewrite Z.div_1_r, Z.mod_1_r. unfold round_half_even. done.
Qed.

(** From [2^52] on, the low bits are rounded away. *)
Lemma round_pos_int_big (a : Z) :
  0 < a → 52 ≤ Z.log2 a →
  float64_round_pos a 1 =
  (round_half_even (a `div` 2 ^ (Z.log2 a - 52)) (a `mod` 2 ^ (Z.log2 a - 52))
     (2 ^ (Z.log2 a - 52)),
   Z.log2 a - 52).
Proof.
  intros Ha Hl. unfold float64_round_pos. rewrite ulp_exponent_int by done.
  unfold scale2. rewrite (proj2 (Z.leb_le 0 (Z.log2 a - 52))) by lia.
  by rewrite Z.mul_1_l.
Qed.

(** The quotient kept by the rounding has 53 bits, and the rounding moves it
    up by one at most. *)
Lemma round_pos_int_bounds (a : Z) :
  0 < a → 52 ≤ Z.log2 a →
  let e := Z.log2 a - 52 in
  let m := round_half_even (a `div` 2 ^ e) (a `mod` 2 ^ e) (2 ^ e) in
  0 < 2 ^ e ∧ 2 ^ 52 ≤ a `div` 2 ^ e < 2 ^ 53 ∧
  (m = a `div` 2 ^ e ∨ m = a `div` 2 ^ e + 1).
Proof.
  intros Ha Hl e m.
  assert (0 < 2 ^ e) as HP by (apply Z.pow_pos_nonneg; lia).
  pose proof (Z.log2_spec a Ha) as [Hlo Hhi].
  assert (2 ^ Z.log2 a = 2 ^ 52 * 2 ^ e) as E1.
  { rewrite <-Z.pow_add_r by lia. f_equal. lia. }
  assert (2 ^ Z.succ (Z.log2 a) = 2 ^ 53 * 2 ^ e) as E2.
  { rewrite <-Z.pow_add_r by lia. f_equal. lia. }
  rewrite E1 in Hlo. rewrite E2 in Hhi.
  split; [done|]. split; [split|].
  - apply Z.div_le_lower_bound; lia.
  - apply Z.div_lt_upper_bound; lia.
  - unfold m, round_half_even. repeat (destruct (_ : bool)); auto.
Qed.

Lemma log2_le_62 (a : Z) : 0 < a → a < 2 ^ 63 → Z.log2 a ≤ 62.
Proof.
  intros Ha Hlt. destruct (Z.log2_spec a Ha) as [Hlo _].
  destruct (Z_le_gt_dec (Z.log2 a) 62) as [|Hgt]; [done|].
  assert (2 ^ 63 ≤ 2 ^ Z.log2 a) by (apply Z.pow_le_mono_r; lia). lia.
Qed.

(** Rounding does not leave the range of [int64] below [2^63 - 512]. *)
Lemma rounded_bound (a : Z) :
  0 < a → 52 ≤ Z.log2 a → a < 2 ^ 63 →
  0 < rounded a ≤ 2 ^ 63 ∧ (a < 2 ^ 63 - 512 → rounded a < 2 ^ 63).
Proof.
  intros Ha Hl Hlt. unfold rounded.
  destruct (round_pos_int_bounds a Ha Hl) as (HP & [Hq1 Hq2] & Hm).
  cbv zeta in *. set (e := Z.log2 a - 52) in *.
  set (q := a `div` 2 ^ e) in *. set (r := a `mod` 2 ^ e) in *.
  set (m := round_half_even q r (2 ^ e)) in *.
  pose proof (log2_le_62 a Ha Hlt) as Hl62.
  assert (2 ^ 52 ≤ m ≤ 2 ^ 53) as Hm' by (destruct Hm as [->| ->]; lia).
  split.
  - split; [apply Z.mul_pos_pos; lia|].
    assert (2 ^ e ≤ 2 ^ 10) by (apply Z.pow_le_mono_r; lia).
    change (2 ^ 63) with (2 ^ 53 * 2 ^ 10). apply Z.mul_le_mono_nonneg; lia.
  - intros Hlt'. destruct (Z_le_gt_dec (Z.log2 a) 61) as [H61|H61].
    + assert (2 ^ e ≤ 2 ^ 9) by (apply Z.pow_le_mono_r; lia).
      assert (m * 2 ^ e ≤ 2 ^ 53 * 2 ^ 9) by (apply Z.mul_le_mono_nonneg; lia).
      change (2 ^ 53 * 2 ^ 9) with (2 ^ 62) in *. lia.
    + assert (e = 10) as He by lia.
      pose proof (Z.div_mod a (2 ^ e) ltac:(lia)) as Hdm.
      pose proof (Z.mod_pos_bound a (2 ^ e) HP) as Hr.
      fold q r in Hdm, Hr. clearbody q r. unfold m, round_half_even.
      rewrite He in *. change (2 ^ 10) with 1024 in *.
      destruct (Z.ltb_spec (2 * r) 1024); [lia|].
      destruct (Z.eqb_spec (2 * r) 1024); [destruct (Z.even q); lia|lia].
Qed.

(** The [float64] of a non-zero [int64], small or wide. *)
Lemma float64_of_fraction_small (t : Z) :
  t ≠ 0 → Z.log2 (Z.abs t) < 52 →
  float64_of_fraction t 1
  = Some (Qmake (t * 2 ^ (52 - Z.log2 (Z.abs t))) (Z.to_pos (2 ^ (52 - Z.log2 (Z.abs t))))).
Proof.
  intros Ht Hl. unfold float64_of_fraction.
  rewrite (proj2 (Z.eqb_neq t 0)) by done.
  rewrite round_pos_int_small by lia.
  rewrite (proj2 (Z.leb_gt 0 (Z.log2 (Z.abs t) - 52))) by lia. cbn [andb].
  unfold Q_of_binary. rewrite (proj2 (Z.leb_gt 0 (Z.log2 (Z.abs t) - 52))) by lia.
  replace (- (Z.log2 (Z.abs t) - 52)) with (52 - Z.log2 (Z.abs t)) by lia.
  do 2 f_equal. rewrite Z.mul_assoc. f_equal. destruct t; cbn; lia.
Qed.

Lemma float64_of_fraction_big (t : Z) :
  t ≠ 0 → 52 ≤ Z.log2 (Z.abs t) → Z.abs t < 2 ^ 63 →
  float64_of_fraction t 1 = Some (Qmake (Z.sgn t * rounded (Z.abs t)) 1).
Proof.
  intros Ht Hl Hlt. unfold float64_of_fraction.
  rewrite (proj2 (Z.eqb_neq t 0)) by done.
  rewrite round_pos_int_big by lia.
  destruct (rounded_bound (Z.abs t)) as [[H1 H2] _]; [lia..|].
  unfold rounded in H1, H2.
  rewrite (proj2 (Z.leb_le 0 (Z.log2 (Z.abs t) - 52))) by lia. cbn [andb].
  rewrite (proj2 (Z.leb_gt (2 ^ 1024) _)).
  - unfold Q_of_binary. rewrite (proj2 (Z.leb_le 0 (Z.log2 (Z.abs t) - 52))) by lia.
    unfold rounded. by rewrite Z.mul_assoc.
  - assert (2 ^ 63 < 2 ^ 1024) by (apply Z.pow_lt_mono_r; lia). lia.
Qed.

(** A rounded integer is a [float64]: rounding it again changes nothing. *)
Lemma rounded_idem (a : Z) :
  0 < a → 52 ≤ Z.log2 a →
  52 ≤ Z.log2 (rounded a) ∧ rounded (rounded a) = rounded a.
Proof.
  intros Ha Hl.
  destruct (round_pos_int_bounds a Ha Hl) as (HP & [Hq1 Hq2] & Hm).
  cbv zeta in *. unfold rounded at 1 3 4.
  set (e := Z.log2 a - 52) in *.
  set (m := round_half_even _ _ _) in *.
  assert (0 ≤ e) as He by lia.
  assert (2 ^ 52 ≤ m ≤ 2 ^ 53) as Hm' by (destruct Hm as [->| ->]; lia).
  destruct (Z_lt_le_dec m (2 ^ 53)) as [Hlt|Hge].
  - assert (Z.log2 (m * 2 ^ e) = e + 52) as Hlog.
    { apply Z.log2_unique; [lia|]. split.
      - rewrite Z.pow_add_r by lia. rewrite (Z.mul_comm (2 ^ e)).
        apply Z.mul_le_mono_nonneg_r; lia.
      - replace (Z.succ (e + 52)) with (53 + e) by lia.
        rewrite Z.pow_add_r by lia. apply Z.mul_lt_mono_pos_r; lia. }
    split; [lia|]. unfold rounded. rewrite Hlog.
    replace (e + 52 - 52) with e by lia.
    rewrite Z.div_mul, Z.mod_mul by lia. f_equal.
    unfold round_half_even. by rewrite (proj2 (Z.ltb_lt (2 * 0) (2 ^ e))) by lia.
  - assert (m = 2 ^ 53) as -> by lia.
    assert (2 ^ 53 * 2 ^ e = 2 ^ (e + 53)) as E.
    { rewrite (Z.add_comm e), Z.pow_add_r by lia. done. }
    rewrite E. rewrite Z.log2_pow2 by lia. split; [lia|].
    unfold rounded. rewrite Z.log2_pow2 by lia.
    replace (e + 53 - 52) with (e + 1) by lia.
    replace (e + 53) with (52 + (e + 1)) by lia.
    rewrite (Z.pow_add_r 2 52) by lia.
    assert (0 < 2 ^ (e + 1)) by (apply Z.pow_pos_nonneg; lia).
    rewrite Z.div_mul, Z.mod_mul by lia. f_equal.
    unfold round_half_even. by rewrite (proj2 (Z.ltb_lt (2 * 0) (2 ^ (e + 1)))) by lia.
Qed.

Lemma int64_of_float64_integer (unspecified : Q → Z) (i : Z) :
  - 2 ^ 63 ≤ i < 2 ^ 63 → int64_of_float64 unspecified (Qmake i 1) = i.
Proof.
  intros Hi. unfold int64_of_float64. cbn [Qnum Qden]. rewrite Z.quot_1_r.
  rewrite (proj2 (Z.leb_le (- 2 ^ 63) i)), (proj2 (Z.ltb_lt i (2 ^ 63))) by lia.
  done.
Qed.

Lemma abs_lt_pow2 (t : Z) (n : Z) :
  t ≠ 0 → Z.log2 (Z.abs t) < n → Z.abs t < 2 ^ n.
Proof.
  intros Ht Hl. destruct (Z.log2_spec (Z.abs t)) as [_ Hhi]; [lia|].
  assert (2 ^ Z.succ (Z.log2 (Z.abs t)) ≤ 2 ^ n) by (apply Z.pow_le_mono_r; lia).
  lia.
Qed.

(** [float64(t)] exists for every [int64] below [2^63 - 512], converts back
    to an [int64], and that [int64] converts to the same [float64]: the test
    [float64(int64(t)) != t] of [UnmarshalJSON] passes. *)
Lemma float64_int64_float64 (unspecified : Q → Z) (t : Z) :
  - 2 ^ 63 ≤ t < 2 ^ 63 - 512 →
  ∃ f, float64_of_fraction t 1 = Some f ∧
    Qeq_bool (float64_of_int64 (int64_of_float64 unspecified f)) f = true.
Proof.
  intros Ht.
  destruct (decide (t = 0)) as [->|Hne].
  { eexists. split; [reflexivity|]. vm_compute. reflexivity. }
  destruct (decide (t = - 2 ^ 63)) as [->|Hmin].
  { eexists. split; [vm_compute; reflexivity|]. vm_compute. reflexivity. }
  destruct (Z_lt_le_dec (Z.log2 (Z.abs t)) 52) as [Hsmall|Hbig].
  - eexists. split; [by apply float64_of_fraction_small|].
    set (k := 52 - Z.log2 (Z.abs t)).
    assert (0 < 2 ^ k) as Hk by (apply Z.pow_pos_nonneg; lia).
    assert (int64_of_float64 unspecified (Qmake (t * 2 ^ k) (Z.to_pos (2 ^ k))) = t) as ->.
    { unfold int64_of_float64. cbn [Qnum Qden].
      rewrite Z2Pos.id, Z.quot_mul by lia.
      pose proof (abs_lt_pow2 t 52 Hne Hsmall).
      assert (2 ^ 52 < 2 ^ 63) by (apply Z.pow_lt_mono_r; lia).
      rewrite (proj2 (Z.leb_le (- 2 ^ 63) t)), (proj2 (Z.ltb_lt t (2 ^ 63))) by lia.
      done. }
    unfold float64_of_int64. rewrite float64_of_fraction_small by done.
    cbn [default from_option]. apply Qeq_bool_iff. reflexivity.
  - assert (Z.abs t < 2 ^ 63) as Habs by lia.
    eexists. split; [by apply float64_of_fraction_big|].
    destruct (rounded_bound (Z.abs t)) as [[HM1 HM2] HM3]; [lia..|].
    destruct (rounded_idem (Z.abs t)) as [HL HI]; [lia..|].
    set (M := rounded (Z.abs t)) in *.
    assert (- 2 ^ 63 ≤ Z.sgn t * M < 2 ^ 63) as Hrange.
    { destruct t as [|p|p]; [done| |].
      - cbn [Z.sgn Z.abs] in *. lia.
      - change (Z.sgn (Z.neg p)) with (-1). lia. }
    rewrite int64_of_float64_integer by done.
    destruct (decide (M = 2 ^ 63)) as [HM|HM].
    + assert (Z.sgn t = -1) as -> by (destruct t; cbn in *; lia).
      rewrite HM. vm_compute. reflexivity.
    + unfold float64_of_int64.
      assert (Z.abs (Z.sgn t * M) = M ∧ Z.sgn (Z.sgn t * M) = Z.sgn t) as [E1 E2].
      { destruct t as [|p|p]; [done| |].
        - change (Z.sgn (Z.pos p)) with 1. rewrite Z.mul_1_l. split; [lia|].
          apply Z.sgn_pos. lia.
        - change (Z.sgn (Z.neg p)) with (-1). split; [lia|].
          apply Z.sgn_neg. lia. }
      rewrite float64_of_fraction_big; rewrite ?E1, ?E2; [|lia|done|lia].
      cbn [default from_option]. rewrite HI. apply Qeq_bool_iff. reflexivity.
Qed.

(** Up to [2^53] in absolute value, [int64(float64(t))] is [t]. *)
Lemma int64_float64_exact (unspecified : Q → Z) (t : Z) :
  - 2 ^ 53 ≤ t ≤ 2 ^ 53 → int64_float64 unspecified t = t.
Proof.
  intros Ht. unfold int64_float64, float64_of_int64.
  destruct (decide (t = 0)) as [->|Hne]; [reflexivity|].
  destruct (decide (t = 2 ^ 53)) as [->|Hp]; [reflexivity|].
  destruct (decide (t = - 2 ^ 53)) as [->|Hn]; [reflexivity|].
  assert (Z.abs t < 2 ^ 53) as Habs by lia.
  assert (Z.log2 (Z.abs t) < 53) as Hlog by (apply Z.log2_lt_pow2; lia).
  assert (2 ^ 53 < 2 ^ 63) as H63 by (apply Z.pow_lt_mono_r; lia).
  destruct (Z_lt_le_dec (Z.log2 (Z.abs t)) 52) as [Hsmall|Hbig].
  - rewrite float64_of_fraction_small by done.
    change (default ?d (Some ?x)) with x.
    set (k := 52 - Z.log2 (Z.abs t)).
    assert (0 < 2 ^ k) as Hk by (apply Z.pow_pos_nonneg; lia).
    unfold int64_of_float64.
    change (Qnum (Qmake ?n ?d)) with n. change (Qden (Qmake ?n ?d)) with d.
    rewrite Z2Pos.id, Z.quot_mul by lia.
    by rewrite (proj2 (Z.leb_le (- 2 ^ 63) t)), (proj2 (Z.ltb_lt t (2 ^ 63))) by lia.
  - rewrite float64_of_fraction_big by lia.
    change (default ?d (Some ?x)) with x.
    assert (rounded (Z.abs t) = Z.abs t) as ->.
    { unfold rounded. replace (Z.log2 (Z.abs t) - 52) with 0 by lia.
      change (2 ^ 0) with 1. rewrite Z.div_1_r, Z.mod_1_r, Z.mul_1_r.
      reflexivity. }
    assert (Z.sgn t * Z.abs t = t) as -> by (destruct t; cbn; lia).
    apply int64_of_float64_integer. lia.
Qed.

(** X14. Decoding what [MarshalJSON] wrote.  For every entry whose value is
    absent or made of ASCII bytes and whose timestamp is an [int64] below
    [2^63 - 512], [MarshalJSON] returns no error and [UnmarshalJSON], on any
    target, accepts the text and leaves the entry's value with the timestamp
    [int64(float64(t))]: the timestamp goes through a [float64], so it comes
    back exactly when it is at most [2^53] in absolute value, and rounded to
    53 significant bits beyond. *)
Theorem MarshalJSON_UnmarshalJSON (unspecified : Q → Z) (target : ValueTimestamp)
    (v : option string) (t : Z) :
  from_option all_ascii True v →
  - 2 ^ 63 ≤ t < 2 ^ 63 - 512 →
  (MarshalJSON (mkVT v t)).2 = None ∧
  UnmarshalJSON unspecified target (MarshalJSON (mkVT v t)).1
  = (mkVT v (int64_float64 unspecified t), None) ∧
  (- 2 ^ 53 ≤ t ≤ 2 ^ 53 → int64_float64 unspecified t = t).
Proof.
  intros Hv Ht. split; [done|]. split; [|apply int64_float64_exact].
  unfold UnmarshalJSON, json_Unmarshal. rewrite json_parse_MarshalJSON by done.
  destruct (float64_int64_float64 unspecified t Ht) as (f & Hf & Hcheck).
  assert (to_interfaces [jvalue_of v; Jnumber t 0]
          = Some [match v with None => Inil | Some s => Istring s end; Ifloat64 f])
    as ->.
  { unfold to_interfaces. cbn [to_interface].
    assert (ParseFloat t 0 = Some f) as ->.
    { unfold ParseFloat. cbn [Z.leb Z.compare]. change (10 ^ 0) with 1.
      by rewrite Z.mul_1_r. }
    by destruct v. }
  assert (int64_float64 unspecified t = int64_of_float64 unspecified f) as ->.
  { unfold int64_float64, float64_of_int64. by rewrite Hf. }
  unfold UnmarshalJSON_decoded. destruct v as [s|]; by rewrite Hcheck.
Qed.

Lemma MarshalJSON_UnmarshalJSON_witness :
  (MarshalJSON (mkVT (Some "one") now_2017)).2 = None ∧
  UnmarshalJSON amd64 (mkVT None 0) (MarshalJSON (mkVT (Some "one") now_2017)).1
  = (mkVT (Some "one") (int64_float64 amd64 now_2017), None) ∧
  (- 2 ^ 53 ≤ now_2017 ≤ 2 ^ 53 → int64_float64 amd64 now_2017 = now_2017).
Proof.
  apply (MarshalJSON_UnmarshalJSON amd64 (mkVT None 0) (Some "one") now_2017).
  - vm_compute. repeat split; reflexivity.
  - vm_compute. split; [discriminate|reflexivity].
Defined.

(** The timestamp of [ExampleStore_SetTimestamped], a time in 2017 in
    nanoseconds, does not survive the codec: it comes back 6 ns earlier. *)
Example codec_loses_nanoseconds :
  (MarshalJSON (mkVT (Some "one") 1483326245000000006)).1
  = "[" +:+ String dquote "one" +:+ String dquote ",1483326245000000006]" ∧
  UnmarshalJSON amd64 (mkVT None 0)
    (MarshalJSON (mkVT (Some "one") 1483326245000000006)).1
  = (mkVT (Some "one") 1483326245000000000, None).
Proof. split; vm_compute; reflexivity. Qed.

(** ** The fuel of the reader is never exhausted *)

Lemma skip_space_length (s : string) :
  (String.length (skip_space s) ≤ String.length s)%nat.
Proof.
  induction s as [|c s IH]; [done|]. cbn [skip_space].
  destruct (is_space _); cbn [String.length]; lia.
Qed.

Lemma string_drop_length (n : nat) (c : ascii) (s : string) :
  (String.length (string_drop (S n) (String c s)) ≤ String.length s)%nat.
Proof.
  cbn [string_drop]. revert s. induction n as [|n IH]; intros s.
  - by destruct s.
  - destruct s as [|c' s]; [done|]. cbn [string_drop String.length].
    specialize (IH s). lia.
Qed.

Lemma hex4_length (s : string) (x : Z) (r : string) :
  hex4 s = Some (x, r) → String.length s = (4 + String.length r)%nat.
Proof.
  unfold hex4. destruct s as [|a [|b [|c [|d rest]]]]; try done.
  repeat (destruct (hex_value _); [|done]). by intros [= _ <-].
Qed.

Lemma getu4_length (s : string) (x : Z) (r : string) :
  getu4 s = Some (x, r) → String.length s = (6 + String.length r)%nat.
Proof.
  unfold getu4. destruct s as [|a [|b rest]]; try done.
  destruct (_ && _); [|done]. intros H%hex4_length. cbn [String.length]. lia.
Qed.

Lemma utf8_DecodeRune_size (c : ascii) (s : string) :
  ∃ n, (utf8_DecodeRune (String c s)).2 = S n.
Proof.
  unfold utf8_DecodeRune, continuation.
  repeat (match goal with
          | |- context [if ?b then _ else _] => destruct b
          | |- context [match ?x with EmptyString => _ | String _ _ => _ end] => destruct x
          end); cbn [snd]; by eexists.
Qed.

Lemma parsed_prepend_fuel (x : string) (p : parsed string) :
  p ≠ OutOfFuel → parsed_prepend x p ≠ OutOfFuel.
Proof. by destruct p. Qed.

Lemma parsed_prepend_rest (x : string) (p : parsed string) (y r : string) :
  parsed_prepend x p = Parsed y r → ∃ y', p = Parsed y' r.
Proof. destruct p; [|done..]. cbn. intros [= _ <-]. by eexists. Qed.

(** [unquote] with more fuel than bytes ends, and takes at least one byte. *)
Lemma unquote_fuel (f : nat) :
  ∀ s, (String.length s < f)%nat →
    unquote f s ≠ OutOfFuel ∧
    ∀ x r, unquote f s = Parsed x r → (String.length r < String.length s)%nat.
Proof.
  induction f as [|f IH]; intros s Hf; [lia|].
  assert (∀ (x : string) (s' : string),
            (String.length s' < String.length s)%nat →
            parsed_prepend x (unquote f s') ≠ OutOfFuel ∧
            ∀ y r, parsed_prepend x (unquote f s') = Parsed y r →
                   (String.length r < String.length s)%nat) as Hrec.
  { intros x s' Hs'. destruct (IH s') as [H1 H2]; [lia|]. split.
    - by apply parsed_prepend_fuel.
    - intros y r [y' Hy]%parsed_prepend_rest. apply H2 in Hy. lia. }
  destruct s as [|c rest]; [done|]. cbn [unquote].
  destruct (byte_val c =? 34).
  { split; [done|]. intros x r [= _ <-]. cbn [String.length]. lia. }
  destruct (byte_val c =? 92).
  { destruct rest as [|e rest']; [done|].
    destruct (byte_val e =? 117).
    - destruct (hex4 rest') as [[rr rest'']|] eqn:Hh; [|done].
      apply hex4_length in Hh.
      destruct (utf16_IsSurrogate rr).
      + destruct (getu4 rest'') as [[rr1 rest3]|] eqn:Hg.
        * apply getu4_length in Hg.
          destruct (_ =? RuneError); apply Hrec; cbn [String.length]; lia.
        * apply Hrec. cbn [String.length]. lia.
      + apply Hrec. cbn [String.length]. lia.
    - destruct (simple_escape _); [|done]. apply Hrec. cbn [String.length]. lia. }
  destruct (byte_val c <? 32); [done|].
  destruct (byte_val c <? 128).
  { apply Hrec. cbn [String.length]. lia. }
  destruct (utf8_DecodeRune (String c rest)) as [rr size] eqn:Hd.
  destruct (utf8_DecodeRune_size c rest) as [n Hn]. rewrite Hd in Hn.
  cbn [snd] in Hn. subst size. apply Hrec.
  pose proof (string_drop_length n c rest). cbn [String.length]. lia.
Qed.

Lemma digits_length (s : string) :
  ∀ acc n, (String.length (digits acc n s).2 ≤ String.length s)%nat.
Proof.
  induction s as [|c s IH]; intros acc n; [done|]. cbn [digits].
  destruct (is_digit _); [|done]. specialize (IH (10 * acc + (byte_val c - 48)) (S n)).
  cbn [String.length]. lia.
Qed.

Lemma number_length (s : string) (v : jvalue) (r : string) :
  number s = Parsed v r → (String.length r < String.length s)%nat.
Proof.
  unfold number.
  set (p := match s with
            | String c s' => if byte_val c =? 45 then (true, s') else (false, s)
            | EmptyString => (false, s)
            end).
  assert (String.length p.2 ≤ String.length s)%nat as Hp.
  { subst p. destruct s as [|c s']; [done|]. destruct (_ =? _); cbn; lia. }
  destruct p as [neg s1]. cbn [snd] in Hp.
  destruct (number_int s1) as [[i s2]|] eqn:Hi; [|done].
  assert (String.length s2 < String.length s1)%nat as H2.
  { unfold number_int in Hi. destruct s1 as [|c s']; [done|].
    destruct (_ =? 48); [injection Hi as _ <-; cbn; lia|].
    destruct (between _ _ _) eqn:Hb; [|done]. cbn [digits] in Hi.
    destruct (is_digit _) eqn:Hg.
    - pose proof (digits_length s' (10 * 0 + (byte_val c - 48)) 1) as Hd.
      destruct (digits _ _ s') as [[i' k] rest]. injection Hi as _ <-.
      cbn in *. lia.
    - unfold is_digit, between in Hb, Hg. lia. }
  destruct (number_frac i s2) as [[[m e] s3]|] eqn:Hf; [|done].
  assert (String.length s3 ≤ String.length s2)%nat as H3.
  { unfold number_frac in Hf. destruct s2 as [|c s']; [by injection Hf as _ _ <-|].
    destruct (_ =? 46); [|by injection Hf as _ _ <-].
    pose proof (digits_length s' 0 0) as Hd.
    destruct (digits _ _ s') as [[f k] rest]. destruct k; [done|].
    injection Hf as _ _ <-. cbn in *. lia. }
  destruct (number_exp e s3) as [[e' s4]|] eqn:He; [|done].
  assert (String.length s4 ≤ String.length s3)%nat as H4.
  { unfold number_exp in He. destruct s3 as [|c s']; [by injection He as _ <-|].
    destruct (_ || _); [|by injection He as _ <-].
    set (q := match s' with
              | String sg t =>
                  if byte_val sg =? 43 then (false, t)
                  else if byte_val sg =? 45 then (true, t) else (false, s')
              | EmptyString => (false, s')
              end) in He.
    assert (String.length q.2 ≤ String.length s')%nat as Hq.
    { subst q. destruct s' as [|sg t]; [done|].
      repeat destruct (_ =? _); cbn; lia. }
    destruct q as [ng s'']. cbn [snd] in Hq.
    pose proof (digits_length s'' 0 0) as Hd.
    destruct (digits _ _ s'') as [[x k] rest]. destruct k; [done|].
    injection He as _ <-. cbn in *. lia. }
  intros [= _ <-]. lia.
Qed.

Lemma literal_length (a : ascii) (lit s r : string) :
  literal (String a lit) s = Some r → (String.length r < String.length s)%nat.
Proof.
  assert (∀ lit s r, literal lit s = Some r →
                     (String.length r ≤ String.length s)%nat) as Hle.
  { clear. induction lit as [|a lit IH]; intros s r; cbn [literal].
    - by intros [= <-].
    - destruct s as [|b s]; [done|]. destruct (Ascii.eqb a b); [|done].
      intros H%IH. cbn [String.length]. lia. }
  cbn [literal]. destruct s as [|b s]; [done|].
  destruct (Ascii.eqb a b); [|done]. intros H%Hle. cbn [String.length]. lia.
Qed.

Lemma ends_shorter_bind {A B} (p : parsed A) (k : A → string → parsed B)
    (m n : nat) :
  ends_shorter p m →
  (∀ x r, (String.length r < m)%nat → ends_shorter (k x r) n) →
  ends_shorter (parsed_bind p k) n.
Proof.
  intros [Hp Hr] Hk. destruct p as [x r| |]; [|done..]. cbn [parsed_bind].
  apply Hk. by eapply Hr.
Qed.

Lemma ends_shorter_Parsed {A} (x : A) (r : string) (n : nat) :
  (String.length r < n)%nat → ends_shorter (Parsed x r) n.
Proof. intros H. split; [done|]. by intros ?? [= _ <-]. Qed.

Lemma ends_shorter_Invalid {A} (n : nat) : ends_shorter (@Invalid A) n.
Proof. done. Qed.

Lemma ends_shorter_le {A} (p : parsed A) (m n : nat) :
  ends_shorter p m → (m ≤ n)%nat → ends_shorter p n.
Proof. intros [H1 H2] Hmn. split; [done|]. intros x r H%H2. lia. Qed.

Lemma ends_shorter_unquote (s : string) (n : nat) :
  (String.length s < n)%nat →
  ends_shorter (unquote (S (String.length s)) s) n.
Proof.
  intros Hn. destruct (unquote_fuel (S (String.length s)) s) as [H1 H2]; [lia|].
  split; [done|]. intros x r H%H2. lia.
Qed.

(** With more fuel than bytes, the four readers end, and take at least one
    byte. *)
Lemma value_fuel (f : nat) :
  ∀ d s, (String.length s < f)%nat →
    ends_shorter (value f d s) (String.length s) ∧
    ends_shorter (elements f d s) (String.length s) ∧
    ends_shorter (member f d s) (String.length s) ∧
    ends_shorter (members f d s) (String.length s).
Proof.
  induction f as [|f IH]; intros d s Hf; [lia|].
  pose proof (skip_space_length s) as Hs.
  assert (∀ d s', (String.length s' < f)%nat → ∀ n, (String.length s' ≤ n)%nat →
            ends_shorter (value f d s') n) as IHv.
  { intros d' s' H n Hn. eapply ends_shorter_le; [apply IH, H|done]. }
  assert (∀ d s', (String.length s' < f)%nat → ∀ n, (String.length s' ≤ n)%nat →
            ends_shorter (elements f d s') n) as IHe.
  { intros d' s' H n Hn. eapply ends_shorter_le; [apply IH, H|done]. }
  assert (∀ d s', (String.length s' < f)%nat → ∀ n, (String.length s' ≤ n)%nat →
            ends_shorter (member f d s') n) as IHm.
  { intros d' s' H n Hn. eapply ends_shorter_le; [apply IH, H|done]. }
  assert (∀ d s', (String.length s' < f)%nat → ∀ n, (String.length s' ≤ n)%nat →
            ends_shorter (members f d s') n) as IHms.
  { intros d' s' H n Hn. eapply ends_shorter_le; [apply IH, H|done]. }
  clear IH. repeat split_and.
  - cbn [value]. destruct (skip_space s) as [|c rest] eqn:Hsk; [done|].
    cbn [String.length] in Hs. cbn zeta.
    pose proof (skip_space_length rest) as Hr.
    destruct (byte_val c =? 91).
    { destruct (_ <=? d); [done|].
      destruct (skip_space rest) as [|c' rest'] eqn:Hsk'; [done|].
      destruct (byte_val c' =? 93).
      { apply ends_shorter_Parsed. cbn [String.length] in Hr. lia. }
      eapply ends_shorter_bind; [apply IHv; [|reflexivity]; cbn [String.length] in *; lia|].
      intros v r Hv. eapply ends_shorter_bind; [apply IHe; [|reflexivity]; cbn [String.length] in *; lia|].
      intros vs r' Hvs. apply ends_shorter_Parsed. lia. }
    destruct (byte_val c =? 123).
    { destruct (_ <=? d); [done|].
      destruct (skip_space rest) as [|c' rest'] eqn:Hsk'; [done|].
      destruct (byte_val c' =? 125).
      { apply ends_shorter_Parsed. cbn [String.length] in Hr. lia. }
      eapply ends_shorter_bind; [apply IHm; [|reflexivity]; cbn [String.length] in *; lia|].
      intros v r Hv. eapply ends_shorter_bind; [apply IHms; [|reflexivity]; cbn [String.length] in *; lia|].
      intros vs r' Hvs. apply ends_shorter_Parsed. lia. }
    destruct (byte_val c =? 34).
    { eapply ends_shorter_bind; [apply (ends_shorter_unquote rest (S (String.length rest))); lia|].
      intros x r Hx. apply ends_shorter_Parsed. lia. }
    destruct (_ || _).
    { split.
      - unfold number. repeat case_match; done.
      - intros v r H%number_length. cbn [String.length] in H. lia. }
    destruct (byte_val c =? 116).
    { destruct (literal _ _) as [r|] eqn:Hl; [|done].
      apply literal_length in Hl. apply ends_shorter_Parsed. cbn [String.length] in Hl. lia. }
    destruct (byte_val c =? 102).
    { destruct (literal _ _) as [r|] eqn:Hl; [|done].
      apply literal_length in Hl. apply ends_shorter_Parsed. cbn [String.length] in Hl. lia. }
    destruct (byte_val c =? 110); [|done].
    destruct (literal _ _) as [r|] eqn:Hl; [|done].
    apply literal_length in Hl. apply ends_shorter_Parsed. cbn [String.length] in Hl. lia.
  - cbn [elements]. destruct (skip_space s) as [|c rest] eqn:Hsk; [done|].
    cbn [String.length] in Hs.
    destruct (byte_val c =? 93); [apply ends_shorter_Parsed; lia|].
    destruct (byte_val c =? 44); [|done].
    eapply ends_shorter_bind; [apply IHv; [|reflexivity]; cbn [String.length] in *; lia|].
    intros v r Hv. eapply ends_shorter_bind; [apply IHe; [|reflexivity]; cbn [String.length] in *; lia|].
    intros vs r' Hvs. apply ends_shorter_Parsed. lia.
  - cbn [member]. destruct (skip_space s) as [|c rest] eqn:Hsk; [done|].
    cbn [String.length] in Hs.
    destruct (byte_val c =? 34); [|done].
    eapply ends_shorter_bind; [apply (ends_shorter_unquote rest (S (String.length rest))); lia|].
    intros k r Hk. pose proof (skip_space_length r) as Hr.
    destruct (skip_space r) as [|c' r'] eqn:Hsk'; [done|].
    cbn [String.length] in Hr.
    destruct (byte_val c' =? 58); [|done].
    eapply ends_shorter_bind; [apply IHv; [|reflexivity]; cbn [String.length] in *; lia|].
    intros v r'' Hv. apply ends_shorter_Parsed. lia.
  - cbn [members]. destruct (skip_space s) as [|c rest] eqn:Hsk; [done|].
    cbn [String.length] in Hs.
    destruct (byte_val c =? 125); [apply ends_shorter_Parsed; lia|].
    destruct (byte_val c =? 44); [|done].
    eapply ends_shorter_bind; [apply IHm; [|reflexivity]; cbn [String.length] in *; lia|].
    intros v r Hv. eapply ends_shorter_bind; [apply IHms; [|reflexivity]; cbn [String.length] in *; lia|].
    intros vs r' Hvs. apply ends_shorter_Parsed. lia.
Qed.

(** [json_parse] never runs out of fuel: a text is a JSON value or it is not. *)
Lemma json_parse_fuel (b : string) : json_parse b ≠ OutOfFuel.
Proof.
  unfold json_parse.
  destruct (value_fuel (2 * String.length b + 2) 0 b) as [[H _] _]; [lia|].
  destruct (value _ _ _) as [v r| |]; [|done..]. cbn [parsed_bind].
  by destruct (skip_space r).
Qed.

(** ** What [UnmarshalJSON] accepts *)

Lemma int64_of_float64_range (unspecified : Q → Z) (t : Q) :
  - 2 ^ 63 ≤ int64_of_float64 unspecified t < 2 ^ 63.
Proof.
  unfold int64_of_float64. cbn zeta.
  destruct (_ && _) eqn:Hin; [lia|].
  unfold wrap_int64.
  pose proof (Z.mod_pos_bound (unspecified t + 2 ^ 63) (2 ^ 64)). lia.
Qed.

(** X15. What a successful [UnmarshalJSON] stores.  When [UnmarshalJSON]
    returns no error, the text is a JSON array of two elements, [null] or a
    string and a number; the target holds that value (deleted for [null]) and
    an [int64] timestamp whose [float64] is the number read, so the number
    was integral; and nothing of what the target held before remains: any
    other target ends the same. *)
Theorem UnmarshalJSON_success (unspecified : Q → Z) (valueTimestamp : ValueTimestamp)
    (b : string) (valueTimestamp' : ValueTimestamp) :
  UnmarshalJSON unspecified valueTimestamp b = (valueTimestamp', None) →
  ∃ e0 t, json_Unmarshal b = inr [e0; Ifloat64 t] ∧
    (e0 = Inil ∧ Value valueTimestamp' = None ∨
     ∃ value, e0 = Istring value ∧ Value valueTimestamp' = Some value) ∧
    - 2 ^ 63 ≤ Timestamp valueTimestamp' < 2 ^ 63 ∧
    (float64_of_int64 (Timestamp valueTimestamp') == t)%Q ∧
    ∀ other, UnmarshalJSON unspecified other b = (valueTimestamp', None).
Proof.
  unfold UnmarshalJSON.
  destruct (json_Unmarshal b) as [e|l] eqn:Hb; [done|].
  unfold UnmarshalJSON_decoded.
  destruct l as [|e0 [|e1 [|e2 l]]]; try done.
  destruct e0 as [|bo|t0|s0|l0|m0]; cbn; try done;
    (destruct e1 as [|bo1|t1|s1|l1|m1]; try done;
     destruct (Qeq_bool _ _) eqn:Hq; [|done];
     intros [= <-]; apply Qeq_bool_iff in Hq;
     eexists _, _; (split; [reflexivity|]); cbn [Value Timestamp];
     (split; [by eauto|]); (split; [apply int64_of_float64_range|]);
     (split; [done|]); intros other).
  all: done.
Qed.

Lemma UnmarshalJSON_success_witness :
  ∃ e0 t,
    json_Unmarshal ("[" +:+ String dquote "one" +:+ String dquote ",1]")
    = inr [e0; Ifloat64 t] ∧
    (e0 = Inil ∧ Value (mkVT (Some "one") 1) = None ∨
     ∃ value, e0 = Istring value ∧ Value (mkVT (Some "one") 1) = Some value) ∧
    - 2 ^ 63 ≤ Timestamp (mkVT (Some "one") 1) < 2 ^ 63 ∧
    (float64_of_int64 (Timestamp (mkVT (Some "one") 1)) == t)%Q ∧
    ∀ other,
      UnmarshalJSON amd64 other ("[" +:+ String dquote "one" +:+ String dquote ",1]")
      = (mkVT (Some "one") 1, None).
Proof.
  apply (UnmarshalJSON_success amd64 (mkVT None 0)
           ("[" +:+ String dquote "one" +:+ String dquote ",1]")
           (mkVT (Some "one") 1)).
  vm_compute. reflexivity.
Defined.

(** ** The top of the range *)

(** The 512 largest [int64]s all round up to [2^63] as [float64]s. *)
Lemma rounded_top (t : Z) :
  2 ^ 63 - 512 ≤ t < 2 ^ 63 → float64_of_fraction t 1 = Some (Qmake (2 ^ 63) 1).
Proof.
  intros Ht.
  assert (Z.log2 t = 62) as Hlog by (apply Z.log2_unique; lia).
  assert (Z.abs t = t) as Habs by lia.
  rewrite float64_of_fraction_big by (rewrite ?Habs; lia).
  rewrite Habs, Z.sgn_pos, Z.mul_1_l by lia.
  do 2 f_equal. unfold rounded. rewrite Hlog.
  change (2 ^ (62 - 52)) with 1024.
  pose proof (Z.div_mod t 1024 ltac:(done)) as Hdm.
  pose proof (Z.mod_pos_bound t 1024 ltac:(done)) as Hr.
  assert (t `div` 1024 = 2 ^ 53 - 1) as Hq by lia.
  rewrite Hq. unfold round_half_even.
  rewrite (proj2 (Z.ltb_ge (2 * (t `mod` 1024)) 1024)) by lia.
  change (Z.even (2 ^ 53 - 1)) with false.
  by destruct (_ =? _).
Qed.

(** X16. The timestamps [MarshalJSON] writes and [UnmarshalJSON] refuses.
    The 512 largest [int64]s are written in full by [MarshalJSON]; read back,
    each is the [float64] [2^63], which [int64(t)] cannot hold; on amd64 the
    conversion gives [-2^63], the test [float64(int64(t)) != t] fails, and
    [UnmarshalJSON] returns the "invalid timestamp" error on the package's own
    output, having already assigned the value. *)
Theorem MarshalJSON_UnmarshalJSON_top (target : ValueTimestamp)
    (v : option string) (t : Z) :
  from_option all_ascii True v →
  2 ^ 63 - 512 ≤ t < 2 ^ 63 →
  (MarshalJSON (mkVT v t)).2 = None ∧
  UnmarshalJSON amd64 target (MarshalJSON (mkVT v t)).1
  = (mkVT v (Timestamp target),
     Some (Errorf ("invalid timestamp from: " +:+ (MarshalJSON (mkVT v t)).1))).
Proof.
  intros Hv Ht. split; [done|].
  unfold UnmarshalJSON, json_Unmarshal. rewrite json_parse_MarshalJSON by done.
  assert (to_interfaces [jvalue_of v; Jnumber t 0]
          = Some [match v with None => Inil | Some s => Istring s end;
                  Ifloat64 (Qmake (2 ^ 63) 1)])
    as ->.
  { unfold to_interfaces. cbn [to_interface].
    assert (ParseFloat t 0 = Some (Qmake (2 ^ 63) 1)) as ->.
    { unfold ParseFloat. cbn [Z.leb Z.compare]. change (10 ^ 0) with 1.
      rewrite Z.mul_1_r. by apply rounded_top. }
    by destruct v. }
  unfold UnmarshalJSON_decoded.
  change (Qeq_bool (float64_of_int64 (int64_of_float64 amd64 (Qmake (2 ^ 63) 1)))
            (Qmake (2 ^ 63) 1))
    with false.
  by destruct v.
Qed.

Lemma MarshalJSON_UnmarshalJSON_top_witness :
  (MarshalJSON (mkVT (Some "one") (2 ^ 63 - 1))).2 = None ∧
  UnmarshalJSON amd64 (mkVT None 7) (MarshalJSON (mkVT (Some "one") (2 ^ 63 - 1))).1
  = (mkVT (Some "one") (Timestamp (mkVT None 7)),
     Some (Errorf ("invalid timestamp from: "
                   +:+ (MarshalJSON (mkVT (Some "one") (2 ^ 63 - 1))).1))).
Proof.
  apply (MarshalJSON_UnmarshalJSON_top (mkVT None 7) (Some "one") (2 ^ 63 - 1)).
  - vm_compute. repeat split; reflexivity.
  - vm_compute. split; [discriminate|reflexivity].
Defined.

(** ** [ValueTimestamp.String] *)

Lemma pretty_N_char_comma_free (d : N) : pretty_N_char d ≠ ","%char.
Proof. unfold pretty_N_char. by repeat case_match. Qed.

Lemma pretty_N_go_comma_free (x : N) :
  ∀ s, comma_free s → comma_free (pretty_N_go x s).
Proof.
  induction (N.lt_wf_0 x) as [x _ IH]. intros s Hs.
  destruct (decide (x = 0)%N) as [->|Hx]; [by rewrite pretty_N_go_0|].
  rewrite pretty_N_go_step by lia.
  apply IH; [apply N.div_lt; lia|]. split; [apply pretty_N_char_comma_free|done].
Qed.

Lemma pretty_Z_comma_free (t : Z) : comma_free (pretty t).
Proof.
  destruct t as [|p|p]; [by split| |].
  - by apply (pretty_N_go_comma_free (Npos p) "").
  - split; [done|]. by apply (pretty_N_go_comma_free (Npos p) "").
Qed.

Lemma comma_free_app (x p : string) :
  comma_free (x +:+ String "," p) → False.
Proof. induction x as [|c x IH]; intros [H1 H2]; [done|by apply IH]. Qed.

(** The last comma of a text splits it in one way. *)
Lemma last_comma (x x' p p' : string) :
  comma_free p → comma_free p' →
  x +:+ String "," p = x' +:+ String "," p' → x = x' ∧ p = p'.
Proof.
  intros Hp Hp'. revert x'. induction x as [|c x IH]; intros [|c' x'].
  - by intros [= ->].
  - intros [= <- ->]. by destruct (comma_free_app x' p').
  - intros [= -> <-]. by destruct (comma_free_app x p).
  - intros [= <- H]. destruct (IH x' H) as [-> ->]. done.
Qed.

Lemma ValueTimestamp_String_shown (valueTimestamp : ValueTimestamp) :
  ValueTimestamp_String valueTimestamp
  = shown_value valueTimestamp +:+ String "," (pretty (Timestamp valueTimestamp)).
Proof. unfold ValueTimestamp_String, shown_value. by destruct (Value _). Qed.

(** X17. [ValueTimestamp.String] can be read back, up to one confusion.  Two
    entries print the same text exactly when they have the same timestamp and
    show the same value: whatever commas the value holds, the timestamp is
    the text after the last comma.  A deletion marker shows the value [nil],
    so it prints like a live entry whose value is the string [nil]. *)
Theorem ValueTimestamp_String_injective (vt vt' : ValueTimestamp) :
  (ValueTimestamp_String vt = ValueTimestamp_String vt' ↔
   Timestamp vt = Timestamp vt' ∧ shown_value vt = shown_value vt') ∧
  ∀ t, ValueTimestamp_String (mkVT None t) = ValueTimestamp_String (mkVT (Some "nil") t).
Proof.
  split; [|done]. rewrite !ValueTimestamp_String_shown. split.
  - intros H. apply last_comma in H as [Hv Ht]; try apply pretty_Z_comma_free.
    split; [|done]. by apply (inj pretty).
  - by intros [-> ->].
Qed.

(** ** Merging three stores *)

Lemma absorbed_assoc (h : heap) (mine : option loc) (l2 l3 : loc) :
  absorbed h (Some (absorbed h mine l2)) l3
  = absorbed h mine (absorbed h (Some l2) l3).
Proof.
  unfold absorbed. destruct mine as [l|];
    repeat (destruct (decide _); try done; try lia).
Qed.

(** X18. Merging is associative.  [A.Absorb(B)] followed by [A.Absorb(C)]
    leaves [A] as [B.Absorb(C)] followed by [A.Absorb(B)] does, pointer for
    pointer: under every key the result holds the first of the entries of
    [A], [B], [C] that has the largest timestamp. *)
Theorem Absorb_assoc (h : heap) (A B C : Store) :
  Absorb h (Absorb h A B) C = Absorb h A (Absorb h B C).
Proof.
  apply map_eq. intros key. rewrite !Absorb_lookup_map.
  destruct (C !! key) as [l3|], (B !! key) as [l2|]; try done.
  by rewrite absorbed_assoc.
Qed.
